(** * The TUN device packet engine of network/tun.go

    A shallow embedding of the Go package [network]: the constructor
    [NewTun], the lifecycle operations [Bind] and [Close], the two pump
    goroutines started by [Bind], and the queue-facing [Read] and [Write].

    Go values are modelled as the program has them: a slice is a slice
    header (pointer, length, capacity) into a heap of byte arrays, a
    buffered channel is a bounded FIFO with a closed flag, a
    [context.Context] is a cell of a context store that the [ctx] and
    [cancel] fields of the device both point to, and system calls go
    through a scripted kernel that records every call in a trace. *)

From stdpp Require Import base list strings pretty.
From Stdlib Require Import ZArith NArith Lia.
From Stdlib.Strings Require Import Byte.

(** ** Constants and plain data *)

Definition uintptr := N.
Definition Errno := uintptr.
Definition error := string.

Definition TUNSETIFF : uintptr := 0x400454ca%N.
Definition IFF_TUN : Z := 0x0001%Z.
Definition IFF_NO_PI : Z := 0x1000%Z.
Definition PACKET_SIZE : nat := 2048.
Definition QUEUE_SIZE : nat := 10.

(** [os.O_RDWR] and the file descriptor [Fd] reports for a closed file,
    [^uintptr(0)]. *)
Definition O_RDWR : Z := 2%Z.
Definition invalid_fd : uintptr := 0xffffffffffffffff%N.
Definition EBADF : Errno := 9%N.

(** [type ifreq struct { ifrName [16]byte; ifrFlags int16 }] *)
Record ifreq := mk_ifreq { ifrName : list byte; ifrFlags : Z }.

Definition ifreq_zero : ifreq :=
  {| ifrName := replicate 16 x00; ifrFlags := 0%Z |}.

(** The builtin [copy(dst, src)]: the first [min (len dst) (len src)]
    elements of [dst] are overwritten, the rest of [dst] is kept. *)
Definition copy (dst src : list byte) : list byte :=
  take (length dst) src ++ drop (length src) dst.

(** A slice header.  [s_ptr] addresses the byte array the slice starts
    at; the nil slice has pointer, length and capacity 0. *)
Record slice := mk_slice { s_ptr : nat; s_len : nat; s_cap : nat }.

Definition nil_slice : slice := {| s_ptr := 0; s_len := 0; s_cap := 0 |}.

(** [type Packet struct { Buf []byte; N uintptr }].  From here on [N]
    is the length field of a packet; the number type is [uintptr]. *)
Record Packet := mk_Packet { Buf : slice; N : uintptr }.

Definition Packet_zero : Packet := {| Buf := nil_slice; N := 0%N |}.

(** A buffered channel of packets: [make(chan Packet, c)]. *)
Record chan := mk_chan { c_buf : list Packet; c_cap : nat; c_closed : bool }.

Definition make_chan (c : nat) : chan :=
  {| c_buf := []; c_cap := c; c_closed := false |}.

(** An [*os.File]: its descriptor and whether [Close] was called on it. *)
Record File := mk_File { f_fd : uintptr; f_closed : bool }.

(** [type NetDevice struct].  [ctx] and [cancel] are [None] for the nil
    interface value and the nil function; otherwise they name the cell
    of the context store they read and cancel. *)
Record NetDevice := mk_NetDevice {
  file : File;
  incomingQueue : chan;
  outgoingQueue : chan;
  ctx : option nat;
  cancel : option nat
}.

(** ** The world outside the device *)

Inductive queue_id := Incoming | Outgoing.

#[global] Instance queue_id_eq_dec : EqDecision queue_id.
Proof. solve_decision. Defined.

(** What the program does that can be observed: its system calls, its
    log lines, and (as history of the two queues) every packet that goes
    into or comes out of a queue. *)
Inductive event :=
| SysOpen (path : string) (flag perm : Z)
| SysIoctl (fd : uintptr) (req : uintptr) (arg : ifreq)
| SysRead (fd : uintptr) (buf : nat) (count : nat)
| SysWrite (fd : uintptr) (bytes : list byte)
| SysClose (fd : uintptr)
| Log (msg : string)
| Sent (q : queue_id) (pkt : Packet)
| Received (q : queue_id) (pkt : Packet).

(** The kernel is scripted: [k_open], [k_ioctl] and [k_close] are the
    errno the corresponding call meets (0 for success), [k_fd] the
    descriptor a successful open hands out, [dev_rx] what the successive
    reads of the device meet (a non-zero errno, or the packet the
    interface has for the process), [dev_tx] the errno of the successive
    writes (success once the script is used up).  [fds] is the descriptor table
    of the process, [heap] the byte arrays, [ctxs] the contexts ([true]
    once cancelled) and [trace] the calls made so far, oldest first. *)
Record World := mk_World {
  heap : list (list byte);
  ctxs : list bool;
  fds : list uintptr;
  k_open : Errno;
  k_fd : uintptr;
  k_ioctl : Errno;
  k_close : Errno;
  dev_rx : list (positive + list byte);
  dev_tx : list Errno;
  trace : list event
}.

Definition set_heap (h : list (list byte)) (w : World) : World :=
  mk_World h (ctxs w) (fds w) (k_open w) (k_fd w) (k_ioctl w) (k_close w)
           (dev_rx w) (dev_tx w) (trace w).
Definition set_ctxs (c : list bool) (w : World) : World :=
  mk_World (heap w) c (fds w) (k_open w) (k_fd w) (k_ioctl w) (k_close w)
           (dev_rx w) (dev_tx w) (trace w).
Definition set_fds (f : list uintptr) (w : World) : World :=
  mk_World (heap w) (ctxs w) f (k_open w) (k_fd w) (k_ioctl w) (k_close w)
           (dev_rx w) (dev_tx w) (trace w).
Definition set_dev_rx (r : list (positive + list byte)) (w : World) : World :=
  mk_World (heap w) (ctxs w) (fds w) (k_open w) (k_fd w) (k_ioctl w) (k_close w)
           r (dev_tx w) (trace w).
Definition set_dev_tx (t : list Errno) (w : World) : World :=
  mk_World (heap w) (ctxs w) (fds w) (k_open w) (k_fd w) (k_ioctl w) (k_close w)
           (dev_rx w) t (trace w).
Definition emit (e : event) (w : World) : World :=
  mk_World (heap w) (ctxs w) (fds w) (k_open w) (k_fd w) (k_ioctl w) (k_close w)
           (dev_rx w) (dev_tx w) (trace w ++ [e]).

(** ** Errors *)

(** [syscall.Errno.Error]: the text of the errno table of Linux, and
    "errno N" for a number without an entry. *)
Definition Errno_Error (e : Errno) : string :=
  match e with
  | 1 => "operation not permitted"
  | 2 => "no such file or directory"
  | 3 => "no such process"
  | 4 => "interrupted system call"
  | 5 => "input/output error"
  | 6 => "no such device or address"
  | 7 => "argument list too long"
  | 8 => "exec format error"
  | 9 => "bad file descriptor"
  | 10 => "no child processes"
  | 11 => "resource temporarily unavailable"
  | 12 => "cannot allocate memory"
  | 13 => "permission denied"
  | 14 => "bad address"
  | 15 => "block device required"
  | 16 => "device or resource busy"
  | 17 => "file exists"
  | 18 => "invalid cross-device link"
  | 19 => "no such device"
  | 20 => "not a directory"
  | 21 => "is a directory"
  | 22 => "invalid argument"
  | 23 => "too many open files in system"
  | 24 => "too many open files"
  | 25 => "inappropriate ioctl for device"
  | 26 => "text file busy"
  | 27 => "file too large"
  | 28 => "no space left on device"
  | 29 => "illegal seek"
  | 30 => "read-only file system"
  | 31 => "too many links"
  | 32 => "broken pipe"
  | 33 => "numerical argument out of domain"
  | 34 => "numerical result out of range"
  | 35 => "resource deadlock avoided"
  | 36 => "file name too long"
  | 37 => "no locks available"
  | 38 => "function not implemented"
  | 39 => "directory not empty"
  | 40 => "too many levels of symbolic links"
  | 42 => "no message of desired type"
  | 43 => "identifier removed"
  | 44 => "channel number out of range"
  | 45 => "level 2 not synchronized"
  | 46 => "level 3 halted"
  | 47 => "level 3 reset"
  | 48 => "link number out of range"
  | 49 => "protocol driver not attached"
  | 50 => "no CSI structure available"
  | 51 => "level 2 halted"
  | 52 => "invalid exchange"
  | 53 => "invalid request descriptor"
  | 54 => "exchange full"
  | 55 => "no anode"
  | 56 => "invalid request code"
  | 57 => "invalid slot"
  | 59 => "bad font file format"
  | 60 => "device not a stream"
  | 61 => "no data available"
  | 62 => "timer expired"
  | 63 => "out of streams resources"
  | 64 => "machine is not on the network"
  | 65 => "package not installed"
  | 66 => "object is remote"
  | 67 => "link has been severed"
  | 68 => "advertise error"
  | 69 => "srmount error"
  | 70 => "communication error on send"
  | 71 => "protocol error"
  | 72 => "multihop attempted"
  | 73 => "RFS specific error"
  | 74 => "bad message"
  | 75 => "value too large for defined data type"
  | 76 => "name not unique on network"
  | 77 => "file descriptor in bad state"
  | 78 => "remote address changed"
  | 79 => "can not access a needed shared library"
  | 80 => "accessing a corrupted shared library"
  | 81 => ".lib section in a.out corrupted"
  | 82 => "attempting to link in too many shared libraries"
  | 83 => "cannot exec a shared library directly"
  | 84 => "invalid or incomplete multibyte or wide character"
  | 85 => "interrupted system call should be restarted"
  | 86 => "streams pipe error"
  | 87 => "too many users"
  | 88 => "socket operation on non-socket"
  | 89 => "destination address required"
  | 90 => "message too long"
  | 91 => "protocol wrong type for socket"
  | 92 => "protocol not available"
  | 93 => "protocol not supported"
  | 94 => "socket type not supported"
  | 95 => "operation not supported"
  | 96 => "protocol family not supported"
  | 97 => "address family not supported by protocol"
  | 98 => "address already in use"
  | 99 => "cannot assign requested address"
  | 100 => "network is down"
  | 101 => "network is unreachable"
  | 102 => "network dropped connection on reset"
  | 103 => "software caused connection abort"
  | 104 => "connection reset by peer"
  | 105 => "no buffer space available"
  | 106 => "transport endpoint is already connected"
  | 107 => "transport endpoint is not connected"
  | 108 => "cannot send after transport endpoint shutdown"
  | 109 => "too many references: cannot splice"
  | 110 => "connection timed out"
  | 111 => "connection refused"
  | 112 => "host is down"
  | 113 => "no route to host"
  | 114 => "operation already in progress"
  | 115 => "operation now in progress"
  | 116 => "stale NFS file handle"
  | 117 => "structure needs cleaning"
  | 118 => "not a XENIX named type file"
  | 119 => "no XENIX semaphores available"
  | 120 => "is a named type file"
  | 121 => "remote I/O error"
  | 122 => "disk quota exceeded"
  | 123 => "no medium found"
  | 124 => "wrong medium type"
  | 125 => "operation canceled"
  | 126 => "required key not available"
  | 127 => "key has expired"
  | 128 => "key has been revoked"
  | 129 => "key was rejected by service"
  | 130 => "owner died"
  | 131 => "state not recoverable"
  | 132 => "operation not possible due to RF-kill"
  | 133 => "memory page has hardware error"
  | _ => "errno " +:+ pretty e
  end%N.

(** The error values the package builds with [fmt.Errorf]. *)
Definition OpenError (cause : string) : error := "open error: " +:+ cause.
Definition ConfigError (cause : string) : error := "ioctl error: " +:+ cause.
Definition CloseError (cause : string) : error := "close error: " +:+ cause.
Definition ReadError (cause : string) : error := "read error: " +:+ cause.
Definition WriteError (cause : string) : error := "write error: " +:+ cause.
Definition DeviceClosedError : error := "device closed".
Definition QueueClosedError : error := "incoming queue is closed".

(** ** The os and syscall boundary *)

(** [os.OpenFile(name, flag, perm)]: a [*File] on success, a
    [*PathError] otherwise. *)
Definition os_OpenFile (name : string) (flag perm : Z) (w : World)
  : (File + error) * World :=
  let w := emit (SysOpen name flag perm) w in
  if (k_open w =? 0)%N
  then (inl {| f_fd := k_fd w; f_closed := false |}, set_fds (k_fd w :: fds w) w)
  else (inr ("open " +:+ name +:+ ": " +:+ Errno_Error (k_open w)), w).

(** [File.Fd]. *)
Definition Fd (f : File) : uintptr := if f_closed f then invalid_fd else f_fd f.

(** [File.Close]: a file closed before reports [os.ErrClosed]; else
    the descriptor is released whatever close(2) answers. *)
Definition File_Close (f : File) (w : World) : File * option error * World :=
  if f_closed f
  then (f, Some "close /dev/net/tun: file already closed", w)
  else
    let w := emit (SysClose (f_fd f)) w in
    let w := set_fds (filter (λ d, d ≠ f_fd f) (fds w)) w in
    let f' := {| f_fd := f_fd f; f_closed := true |} in
    if (k_close w =? 0)%N then (f', None, w)
    else (f', Some ("close /dev/net/tun: " +:+ Errno_Error (k_close w)), w).

(** [syscall.Syscall(SYS_IOCTL, fd, req, &ifr)]: the errno. *)
Definition Syscall_ioctl (fd : uintptr) (req : uintptr) (arg : ifreq) (w : World)
  : Errno * World :=
  let w := emit (SysIoctl fd req arg) w in
  if bool_decide (fd ∈ fds w) then (k_ioctl w, w) else (EBADF, w).

(** ** The constructor *)

Definition NewTun (w : World) : (option NetDevice * option error) * World :=
  match os_OpenFile "/dev/net/tun" O_RDWR 0%Z w with
  | (inr err, w) => (None, Some (OpenError err), w)
  | (inl file, w) =>
      let ifr := ifreq_zero in
      let ifr := {| ifrName := copy (ifrName ifr) (String.list_byte_of_string "tun0");
                    ifrFlags := ifrFlags ifr |} in
      let ifr := {| ifrName := ifrName ifr;
                    ifrFlags := Z.lor IFF_TUN IFF_NO_PI |} in
      let '(sysErr, w) := Syscall_ioctl (Fd file) TUNSETIFF ifr w in
      if negb (sysErr =? 0)%N
      then (None, Some (ConfigError (Errno_Error sysErr)), w)
      else (Some {| file := file;
                    incomingQueue := make_chan QUEUE_SIZE;
                    outgoingQueue := make_chan QUEUE_SIZE;
                    ctx := None;
                    cancel := None |}, None, w)
  end.

(** ** Slices and the heap *)

(** [make([]byte, n)]: a new zeroed array at the next free address. *)
Definition make_bytes (n : nat) (w : World) : slice * World :=
  ({| s_ptr := length (heap w); s_len := n; s_cap := n |},
   set_heap (heap w ++ [replicate n x00]) w).

(** [s[:n]]; [None] is the run-time panic for [n] beyond the capacity. *)
Definition reslice (s : slice) (n : uintptr) : option slice :=
  if (n <=? N.of_nat (s_cap s))%N
  then Some {| s_ptr := s_ptr s; s_len := N.to_nat n; s_cap := s_cap s |}
  else None.

(** The array a slice points into, and the bytes the slice shows. *)
Definition backing (h : list (list byte)) (s : slice) : list byte :=
  default [] (h !! s_ptr s).
Definition slice_bytes (h : list (list byte)) (s : slice) : list byte :=
  take (s_len s) (backing h s).

(** ** Channels, contexts and [select] *)

Inductive send_result := SendOk (c : chan) | SendPanic | SendBlock.

Definition chan_send (c : chan) (p : Packet) : send_result :=
  if c_closed c then SendPanic
  else if length (c_buf c) <? c_cap c
       then SendOk {| c_buf := c_buf c ++ [p]; c_cap := c_cap c; c_closed := false |}
       else SendBlock.

Inductive recv_result := Recv (p : Packet) (ok : bool) (c : chan) | RecvBlock.

Definition chan_recv (c : chan) : recv_result :=
  match c_buf c with
  | p :: rest =>
      Recv p true {| c_buf := rest; c_cap := c_cap c; c_closed := c_closed c |}
  | [] => if c_closed c then Recv Packet_zero false c else RecvBlock
  end.

(** Whether a communication can proceed, as [select] asks. *)
Definition can_send (c : chan) : bool :=
  c_closed c || (length (c_buf c) <? c_cap c).
Definition can_recv (c : chan) : bool :=
  c_closed c || negb (bool_decide (c_buf c = [])).

(** [context.WithCancel(context.Background())], [<-ctx.Done()] being
    ready, and a call of the cancel function. *)
Definition context_WithCancel (w : World) : nat * World :=
  (length (ctxs w), set_ctxs (ctxs w ++ [false]) w).
Definition Done_ready (w : World) (c : nat) : bool :=
  default false (ctxs w !! c).
Definition call_cancel (c : nat) (w : World) : World :=
  set_ctxs (<[c := true]> (ctxs w)) w.

(** A [select] with two communication cases and no default: when both
    can proceed the run time picks one at random, here by [choice]. *)
Inductive selected := Case1 | Case2 | NoCase.

Definition go_select (choice : nat) (ready1 ready2 : bool) : selected :=
  match ready1, ready2 with
  | true, true => if Nat.even choice then Case1 else Case2
  | true, false => Case1
  | false, true => Case2
  | false, false => NoCase
  end.

(** ** Outcomes of a goroutine step *)

Inductive outcome (A : Type) : Type :=
| Returns (a : A) (t : NetDevice) (w : World)
| Panics (msg : string) (t : NetDevice) (w : World)
| Blocks.
Arguments Returns {A} a t w.
Arguments Panics {A} msg t w.
Arguments Blocks {A}.

(** The texts of the run-time panics the package can raise: a nil
    pointer, interface or function value is used; [&buf[0]] on an empty
    slice; [buf[:n]] with [n] above the capacity; a send on a closed
    channel. *)
Definition nil_dereference : string :=
  "runtime error: invalid memory address or nil pointer dereference".
Definition index_out_of_range : string :=
  "runtime error: index out of range [0] with length 0".
Definition slice_out_of_range (n : uintptr) (cap : nat) : string :=
  "runtime error: slice bounds out of range [:" +:+ pretty n +:+
  "] with capacity " +:+ pretty cap.
Definition send_on_closed : string := "send on closed channel".

Definition set_file (f : File) (t : NetDevice) : NetDevice :=
  mk_NetDevice f (incomingQueue t) (outgoingQueue t) (ctx t) (cancel t).
Definition set_incomingQueue (q : chan) (t : NetDevice) : NetDevice :=
  mk_NetDevice (file t) q (outgoingQueue t) (ctx t) (cancel t).
Definition set_outgoingQueue (q : chan) (t : NetDevice) : NetDevice :=
  mk_NetDevice (file t) (incomingQueue t) q (ctx t) (cancel t).

Definition log_Printf (prefix : string) (err : option error) (w : World) : World :=
  match err with
  | Some e => emit (Log (prefix +:+ e)) w
  | None => w
  end.

(** ** Raw reads and writes of the device *)

(** read(2) on the device: [None] while the interface has no packet for
    the process (the call blocks); a packet longer than [count] is cut. *)
Definition Syscall_read (fd : uintptr) (buf : nat) (count : nat) (w : World)
  : option (uintptr * Errno * World) :=
  if bool_decide (fd ∈ fds w) then
    match dev_rx w with
    | [] => None
    | inl e :: rx =>
        Some (invalid_fd, Npos e, set_dev_rx rx (emit (SysRead fd buf count) w))
    | inr data :: rx =>
        let n := count `min` length data in
        let w := set_dev_rx rx (emit (SysRead fd buf count) w) in
        let w := set_heap (alter (λ arr, take n data ++ drop n arr) buf (heap w)) w in
        Some (N.of_nat n, 0%N, w)
    end
  else Some (invalid_fd, EBADF, emit (SysRead fd buf count) w).

(** write(2) on the device, with the bytes it is handed. *)
Definition Syscall_write (fd : uintptr) (bytes : list byte) (w : World)
  : uintptr * Errno * World :=
  let w := emit (SysWrite fd bytes) w in
  if bool_decide (fd ∈ fds w) then
    match dev_tx w with
    | [] => (N.of_nat (length bytes), 0%N, w)
    | e :: tx =>
        if (e =? 0)%N then (N.of_nat (length bytes), 0%N, set_dev_tx tx w)
        else (invalid_fd, e, set_dev_tx tx w)
    end
  else (invalid_fd, EBADF, w).

(** [func (t *NetDevice) read(buf []byte) (uintptr, error)].  A call
    that finds no packet is [Blocks]: the step is not taken, and it is
    tried again when the goroutine is next scheduled, so the arguments
    of the system call, [t.file.Fd()] among them, are those at the time
    the call completes. *)
Definition read (buf : slice) (t : NetDevice) (w : World)
  : outcome (uintptr * option error) :=
  if s_len buf =? 0 then Panics index_out_of_range t w
  else
    match Syscall_read (Fd (file t)) (s_ptr buf) (s_len buf) w with
    | None => Blocks
    | Some (n, sysErr, w) =>
        if negb (sysErr =? 0)%N
        then Returns (0%N, Some (ReadError (Errno_Error sysErr))) t w
        else Returns (n, None) t w
    end.

(** [func (t *NetDevice) write(buf []byte) (uintptr, error)] *)
Definition write (buf : slice) (t : NetDevice) (w : World)
  : outcome (uintptr * option error) :=
  if s_len buf =? 0 then Panics index_out_of_range t w
  else
    let '(n, sysErr, w) :=
      Syscall_write (Fd (file t)) (slice_bytes (heap w) buf) w in
    if negb (sysErr =? 0)%N
    then Returns (0%N, Some (WriteError (Errno_Error sysErr))) t w
    else Returns (n, None) t w.

(** ** The pumps *)

(** The places a read pump goroutine can be at: entering the [select],
    inside [tun.read(buf)], at [tun.incomingQueue <- packet], or gone. *)
Inductive rp_pc :=
| RP_select
| RP_read (buf : slice)
| RP_send (packet : Packet)
| RP_return.

Definition read_pump_step (pc : rp_pc) (tun : NetDevice) (w : World)
  : outcome rp_pc :=
  match pc with
  | RP_select =>
      match ctx tun with
      | None => Panics nil_dereference tun w
      | Some c =>
          if Done_ready w c then Returns RP_return tun w
          else
            let '(buf, w) := make_bytes PACKET_SIZE w in
            Returns (RP_read buf) tun w
      end
  | RP_read buf =>
      match read buf tun w with
      | Returns (n, err) tun w =>
          let w := log_Printf "read error: " err w in
          match reslice buf n with
          | None => Panics (slice_out_of_range n (s_cap buf)) tun w
          | Some b => Returns (RP_send {| Buf := b; N := n |}) tun w
          end
      | Panics msg tun w => Panics msg tun w
      | Blocks => Blocks
      end
  | RP_send packet =>
      match chan_send (incomingQueue tun) packet with
      | SendOk q =>
          Returns RP_select (set_incomingQueue q tun)
                  (emit (Sent Incoming packet) w)
      | SendPanic => Panics send_on_closed tun w
      | SendBlock => Blocks
      end
  | RP_return => Blocks
  end.

(** The places a write pump goroutine can be at. *)
Inductive wp_pc := WP_select | WP_return.

Definition write_pump_step (choice : nat) (pc : wp_pc) (tun : NetDevice)
  (w : World) : outcome wp_pc :=
  match pc with
  | WP_select =>
      match ctx tun with
      | None => Panics nil_dereference tun w
      | Some c =>
          match go_select choice (Done_ready w c) (can_recv (outgoingQueue tun)) with
          | Case1 => Returns WP_return tun w
          | Case2 =>
              match chan_recv (outgoingQueue tun) with
              | RecvBlock => Blocks
              | Recv pkt ok q =>
                  let tun := set_outgoingQueue q tun in
                  let w := if ok then emit (Received Outgoing pkt) w else w in
                  match reslice (Buf pkt) (N pkt) with
                  | None =>
                      Panics (slice_out_of_range (N pkt) (s_cap (Buf pkt))) tun w
                  | Some b =>
                      match write b tun w with
                      | Returns (_, err) tun w =>
                          Returns WP_select tun (log_Printf "write error: " err w)
                      | Panics msg tun w => Panics msg tun w
                      | Blocks => Blocks
                      end
                  end
              end
          | NoCase => Blocks
          end
      end
  | WP_return => Blocks
  end.

Inductive goroutine := ReadPump (pc : rp_pc) | WritePump (pc : wp_pc).

(** ** The public operations *)

(** [func (tun *NetDevice) Bind()]: the device with its context, and
    the two goroutines it starts. *)
Definition Bind (tun : NetDevice) (w : World)
  : NetDevice * World * list goroutine :=
  let '(c, w) := context_WithCancel w in
  (mk_NetDevice (file tun) (incomingQueue tun) (outgoingQueue tun)
                (Some c) (Some c),
   w, [ReadPump RP_select; WritePump WP_select]).

(** [func (t *NetDevice) Close() error] *)
Definition Close (t : NetDevice) (w : World) : outcome (option error) :=
  let '(f, err, w) := File_Close (file t) w in
  let t := set_file f t in
  match err with
  | Some e => Returns (Some (CloseError e)) t w
  | None =>
      match cancel t with
      | None => Panics nil_dereference t w
      | Some c => Returns None t (call_cancel c w)
      end
  end.

(** [func (t *NetDevice) Read() (Packet, error)] *)
Definition Read (t : NetDevice) (w : World) : outcome (Packet * option error) :=
  match chan_recv (incomingQueue t) with
  | RecvBlock => Blocks
  | Recv pkt ok q =>
      let t := set_incomingQueue q t in
      if negb ok then Returns (Packet_zero, Some QueueClosedError) t w
      else Returns (pkt, None) t (emit (Received Incoming pkt) w)
  end.

(** [func (t *NetDevice) Write(pkt Packet) error].  The operands of both
    cases are evaluated on entering the [select], so a nil [ctx] panics
    before any case is picked. *)
Definition Write (choice : nat) (pkt : Packet) (t : NetDevice) (w : World)
  : outcome (option error) :=
  match ctx t with
  | None => Panics nil_dereference t w
  | Some c =>
      match go_select choice (can_send (outgoingQueue t)) (Done_ready w c) with
      | Case1 =>
          match chan_send (outgoingQueue t) pkt with
          | SendOk q =>
              Returns None (set_outgoingQueue q t) (emit (Sent Outgoing pkt) w)
          | SendPanic => Panics send_on_closed t w
          | SendBlock => Blocks
          end
      | Case2 => Returns (Some DeviceClosedError) t w
      | NoCase => Blocks
      end
  end.

(** ** The running program: one device, its goroutines, its callers *)

Record System := mk_System {
  dev : NetDevice;
  world : World;
  pumps : list goroutine;
  crashed : bool
}.

Inductive action :=
| CallBind
| CallRead
| CallWrite (choice : nat) (pkt : Packet)
| CallClose
| RunPump (i : nat) (choice : nat).

Inductive observation :=
| Silent
| GotPacket (pkt : Packet) (err : option error)
| GotError (err : option error)
| Crash (msg : string).

Definition run_goroutine (choice : nat) (g : goroutine) (t : NetDevice)
  (w : World) : outcome goroutine :=
  match g with
  | ReadPump pc =>
      match read_pump_step pc t w with
      | Returns pc t w => Returns (ReadPump pc) t w
      | Panics msg t w => Panics msg t w
      | Blocks => Blocks
      end
  | WritePump pc =>
      match write_pump_step choice pc t w with
      | Returns pc t w => Returns (WritePump pc) t w
      | Panics msg t w => Panics msg t w
      | Blocks => Blocks
      end
  end.

(** One atomic step of the program: a call of the public API that
    completes, or a step of one pump.  [None]: the step cannot be taken
    now (the call or the goroutine is blocked, or the program is gone). *)
Definition sys_step (a : action) (s : System) : option (observation * System) :=
  if crashed s then None
  else
    match a with
    | CallBind =>
        let '(t, w, gs) := Bind (dev s) (world s) in
        Some (Silent, mk_System t w (pumps s ++ gs) false)
    | CallRead =>
        match Read (dev s) (world s) with
        | Returns (pkt, err) t w => Some (GotPacket pkt err, mk_System t w (pumps s) false)
        | Panics msg t w => Some (Crash msg, mk_System t w (pumps s) true)
        | Blocks => None
        end
    | CallWrite choice pkt =>
        match Write choice pkt (dev s) (world s) with
        | Returns err t w => Some (GotError err, mk_System t w (pumps s) false)
        | Panics msg t w => Some (Crash msg, mk_System t w (pumps s) true)
        | Blocks => None
        end
    | CallClose =>
        match Close (dev s) (world s) with
        | Returns err t w => Some (GotError err, mk_System t w (pumps s) false)
        | Panics msg t w => Some (Crash msg, mk_System t w (pumps s) true)
        | Blocks => None
        end
    | RunPump i choice =>
        match pumps s !! i with
        | None => None
        | Some g =>
            match run_goroutine choice g (dev s) (world s) with
            | Returns g t w => Some (Silent, mk_System t w (<[i := g]> (pumps s)) false)
            | Panics msg t w => Some (Crash msg, mk_System t w (pumps s) true)
            | Blocks => None
            end
        end
    end.

(** The states a program reaches that constructs a device at its start
    and then uses it through the public API. *)
Inductive reachable : System -> Prop :=
| reach_NewTun w t w' :
    trace w = [] ->
    NewTun w = (Some t, None, w') ->
    reachable (mk_System t w' [] false)
| reach_step s a o s' :
    reachable s -> sys_step a s = Some (o, s') -> reachable s'.

(** The packets sent into and received from a queue, oldest first. *)
Definition sent_on (q : queue_id) (tr : list event) : list Packet :=
  omap (λ e, match e with
             | Sent q' p => if bool_decide (q' = q) then Some p else None
             | _ => None
             end) tr.
Definition received_on (q : queue_id) (tr : list event) : list Packet :=
  omap (λ e, match e with
             | Received q' p => if bool_decide (q' = q) then Some p else None
             | _ => None
             end) tr.

(** ** What a step does to the queues *)

Definition queue_of (q : queue_id) (t : NetDevice) : chan :=
  match q with
  | Incoming => incomingQueue t
  | Outgoing => outgoingQueue t
  end.

(** The effect of a step on the two queues and on their histories:
    nothing, one packet appended to a queue with room, or the oldest
    packet of a queue taken out. *)
Inductive effect (t : NetDevice) (w : World) (t' : NetDevice) (w' : World)
  : Prop :=
| eff_quiet :
    (∀ q, queue_of q t' = queue_of q t) →
    (∀ q, sent_on q (trace w') = sent_on q (trace w)) →
    (∀ q, received_on q (trace w') = received_on q (trace w)) →
    effect t w t' w'
| eff_send (q : queue_id) (p : Packet) :
    c_closed (queue_of q t) = false →
    length (c_buf (queue_of q t)) < c_cap (queue_of q t) →
    queue_of q t' =
      mk_chan (c_buf (queue_of q t) ++ [p]) (c_cap (queue_of q t)) false →
    (∀ q', q' ≠ q → queue_of q' t' = queue_of q' t) →
    sent_on q (trace w') = sent_on q (trace w) ++ [p] →
    (∀ q', q' ≠ q → sent_on q' (trace w') = sent_on q' (trace w)) →
    (∀ q', received_on q' (trace w') = received_on q' (trace w)) →
    effect t w t' w'
| eff_recv (q : queue_id) (p : Packet) :
    c_buf (queue_of q t) = p :: c_buf (queue_of q t') →
    c_cap (queue_of q t') = c_cap (queue_of q t) →
    c_closed (queue_of q t') = c_closed (queue_of q t) →
    (∀ q', q' ≠ q → queue_of q' t' = queue_of q' t) →
    received_on q (trace w') = received_on q (trace w) ++ [p] →
    (∀ q', q' ≠ q → received_on q' (trace w') = received_on q' (trace w)) →
    (∀ q', sent_on q' (trace w') = sent_on q' (trace w)) →
    effect t w t' w'.

(** What holds of the device and world an outcome leaves behind. *)
Definition post {A : Type} (P : NetDevice → World → Prop) (o : outcome A)
  : Prop :=
  match o with
  | Returns _ t w => P t w
  | Panics _ t w => P t w
  | Blocks => True
  end.

(** The queue invariant: each queue keeps the capacity it was made
    with, is never closed, never holds more than its capacity, and holds
    exactly the packets sent into it and not yet received, in order. *)
Definition queue_inv (t : NetDevice) (w : World) : Prop :=
  ∀ q, c_cap (queue_of q t) = QUEUE_SIZE ∧
       c_closed (queue_of q t) = false ∧
       length (c_buf (queue_of q t)) ≤ c_cap (queue_of q t) ∧
       sent_on q (trace w) = received_on q (trace w) ++ c_buf (queue_of q t).

(** Events that are no channel events, and worlds that differ by such
    events only (and by anything that is not the trace). *)
Definition silent (evs : list event) : Prop :=
  ∀ q, sent_on q evs = [] ∧ received_on q evs = [].
Definition extends_silently (w w' : World) : Prop :=
  ∃ evs, trace w' = trace w ++ evs ∧ silent evs.

(** What every operation but [Bind] leaves alone: the context fields;
    and what every goroutine but the read pump leaves alone: the history
    of packets sent into the Incoming Queue. *)
Definition keeps (t : NetDevice) (w : World) (t' : NetDevice) (w' : World)
  : Prop :=
  effect t w t' w' ∧ ctx t' = ctx t ∧ cancel t' = cancel t.
Definition keeps_incoming (t : NetDevice) (w : World) (t' : NetDevice)
  (w' : World) : Prop :=
  keeps t w t' w' ∧ sent_on Incoming (trace w') = sent_on Incoming (trace w).

(** A packet as the read pump builds it: the length field is the
    length of the buffer, which lies within a capacity of [PACKET_SIZE]. *)
Definition produced (p : Packet) : Prop :=
  N p = N.of_nat (s_len (Buf p)) ∧
  s_len (Buf p) ≤ s_cap (Buf p) ∧
  s_cap (Buf p) = PACKET_SIZE.

(** What a read pump carries from one step to the next. *)
Definition rp_ok (pc : rp_pc) : Prop :=
  match pc with
  | RP_read buf => s_len buf = PACKET_SIZE ∧ s_cap buf = PACKET_SIZE
  | RP_send p => produced p
  | _ => True
  end.

(** The packets a read pump step puts into the Incoming Queue. *)
Definition rp_sends (pc : rp_pc) (o : outcome rp_pc) : list Packet :=
  match pc, o with
  | RP_send p, Returns _ _ _ => [p]
  | _, _ => []
  end.

Definition pump_ok (g : goroutine) : Prop :=
  match g with
  | ReadPump pc => rp_ok pc
  | WritePump _ => True
  end.

(** The invariant of the running program. *)
Definition sys_inv (s : System) : Prop :=
  queue_inv (dev s) (world s) ∧
  Forall pump_ok (pumps s) ∧
  Forall produced (sent_on Incoming (trace (world s))).

(** A schedule: the steps of the program taken one after the other. *)
Fixpoint run (acts : list action) (s : System) : option System :=
  match acts with
  | [] => Some s
  | a :: acts =>
      match sys_step a s with
      | Some (_, s') => run acts s'
      | None => None
      end
  end.

(** ** Sample worlds *)

(** The configuration request [NewTun] builds: "tun0" in a 16-byte
    null-padded name field, and both mode flags. *)
Definition tun0_ifreq : ifreq :=
  {| ifrName := String.list_byte_of_string "tun0" ++ replicate 12 x00;
     ifrFlags := 0x1001%Z |}.

(** A process with nothing open and one array of four bytes at address
    1, a kernel that hands out descriptor 3 and answers open, ioctl and
    close with the given errnos, and a device with the given read
    script. *)
Definition boot (open_errno ioctl_errno close_errno : Errno)
  (rx : list (positive + list byte)) : World :=
  {| heap := [[]; ["a"; "b"; "c"; x00]%byte]; ctxs := []; fds := [];
     k_open := open_errno; k_fd := 3%N; k_ioctl := ioctl_errno;
     k_close := close_errno; dev_rx := rx; dev_tx := []; trace := [] |}.

(** The device [NewTun] returns on a healthy kernel, and the same device
    after [Bind]. *)
Definition fresh_device : NetDevice :=
  {| file := {| f_fd := 3%N; f_closed := false |};
     incomingQueue := make_chan QUEUE_SIZE;
     outgoingQueue := make_chan QUEUE_SIZE;
     ctx := None; cancel := None |}.
Definition bound_device : NetDevice :=
  (Bind fresh_device (NewTun (boot 0%N 0%N 0%N [])).2).1.1.

(** The world right after [NewTun] and [Bind] on such a kernel. *)
Definition bound_world (close_errno : Errno)
  (rx : list (positive + list byte)) : World :=
  (Bind fresh_device (NewTun (boot 0%N 0%N close_errno rx)).2).1.2.

(** A bound device after a successful [Close], with its world. *)
Definition closed_device : NetDevice :=
  set_file {| f_fd := 3%N; f_closed := true |} bound_device.
Definition closed_world : World :=
  call_cancel 0
    (set_fds [] (emit (SysClose 3%N) (bound_world 0%N []))).

(** A caller's packet: three bytes in the array of four at address 1. *)
Definition abc_packet : Packet :=
  {| Buf := {| s_ptr := 1; s_len := 3; s_cap := 4 |}; N := 3%N |}.

(** The packet a read pump builds after a failed read into the buffer
    at address [ptr]. *)
Definition empty_packet (ptr : nat) : Packet :=
  {| Buf := {| s_ptr := ptr; s_len := 0; s_cap := PACKET_SIZE |}; N := 0%N |}.

(** The program right after a successful [NewTun]. *)
Definition booted (close_errno : Errno) (rx : list (positive + list byte))
  : System :=
  mk_System fresh_device (NewTun (boot 0%N 0%N close_errno rx)).2 [] false.

(** A program that starts the device, writes two packets, lets the
    write pump send one and the read pump deliver a two-byte packet,
    and reads it. *)
Definition echo_schedule : list action :=
  [CallBind; CallWrite 0 abc_packet; CallWrite 0 abc_packet; RunPump 1 1;
   RunPump 0 0; RunPump 0 0; RunPump 0 0; CallRead].
Definition echo_state : System :=
  default (booted 0%N []) (run echo_schedule (booted 0%N [inr [x01; x02]])).

(** The world of a read pump that has just allocated its buffer, on a
    device whose next read meets the head of [rx]; and the world the
    raw read leaves. *)
Definition reading_world (rx : list (positive + list byte)) : World :=
  (make_bytes PACKET_SIZE (bound_world 0%N rx)).2.
Definition after_read_world (rx : list (positive + list byte)) : World :=
  match Syscall_read 3%N 2 PACKET_SIZE (reading_world rx) with
  | Some (_, _, w) => w
  | None => reading_world rx
  end.

(** The echo program of test/network/main.go on a device whose first
    read fails: the read pump delivers a packet, the program reads it
    and writes it back. *)
Definition failed_read_echo : System :=
  default (booted 0%N [])
    (run [CallBind; RunPump 0 0; RunPump 0 0; RunPump 0 0; CallRead;
          CallWrite 0 (empty_packet 2)] (booted 0%N [inl 5%positive])).

(** A program that starts the device and shuts it down. *)
Definition shutdown_state : System :=
  default (booted 0%N []) (run [CallBind; CallClose] (booted 0%N [])).

(** ** The echo program of test/network/main.go *)

(** Where the main goroutine is in its loop: about to call [Read], or
    holding the packet it read and about to call [Write]. *)
Inductive main_pc := M_Read | M_Write (pkt : Packet).

(** The running echo program: the device with its pumps, the main
    goroutine, and the byte strings it has passed to [hex.Dump] and
    printed, oldest first. *)
Record Program := mk_Program {
  sys : System;
  pc : main_pc;
  stdout : list (list byte)
}.

Inductive started := Started (p : Program) | StartPanic (msg : string) (w : World).

(** The two statements before the loop.  The error of [NewTun] is
    dropped; on a nil device [Bind] evaluates [context.WithCancel] and
    panics storing into [tun.ctx]. *)
Definition main_start (w : World) : started :=
  let '(network, _, w) := NewTun w in
  match network with
  | None =>
      let '(_, w) := context_WithCancel w in
      StartPanic nil_dereference w
  | Some tun =>
      let '(tun, w, gs) := Bind tun w in
      Started (mk_Program (mk_System tun w gs false) M_Read [])
  end.

(** One statement of the loop body, run by the main goroutine: the
    [Read] with the dump of [pkt.Buf[:pkt.N]], or the [Write].  Both
    errors are dropped.  [None]: the call is blocked. *)
Definition main_step (choice : nat) (p : Program) : option Program :=
  match pc p with
  | M_Read =>
      match sys_step CallRead (sys p) with
      | Some (GotPacket pkt _, s) =>
          match reslice (Buf pkt) (N pkt) with
          | Some b =>
              Some (mk_Program s (M_Write pkt)
                      (stdout p ++ [slice_bytes (heap (world s)) b]))
          | None =>
              Some (mk_Program (mk_System (dev s) (world s) (pumps s) true)
                      M_Read (stdout p))
          end
      | Some (_, s) => Some (mk_Program s M_Read (stdout p))
      | None => None
      end
  | M_Write pkt =>
      match sys_step (CallWrite choice pkt) (sys p) with
      | Some (_, s) => Some (mk_Program s M_Read (stdout p))
      | None => None
      end
  end.

Inductive thread := MainThread | PumpThread (i : nat).

Definition program_step (th : thread) (choice : nat) (p : Program)
  : option Program :=
  match th with
  | MainThread => main_step choice p
  | PumpThread i =>
      match sys_step (RunPump i choice) (sys p) with
      | Some (_, s) => Some (mk_Program s (pc p) (stdout p))
      | None => None
      end
  end.

(** The states the echo program reaches from a world with an empty
    trace. *)
Inductive main_reaches (w : World) : Program → Prop :=
| main_started p :
    trace w = [] → main_start w = Started p → main_reaches w p
| main_steps p th choice p' :
    main_reaches w p → program_step th choice p = Some p' →
    main_reaches w p'.

(** The packet the main goroutine holds between [Read] and [Write]. *)
Definition in_hand (p : Program) : list Packet :=
  match pc p with
  | M_Read => []
  | M_Write pkt => [pkt]
  end.

(** A device whose reads all succeed with at least one byte. *)
Definition healthy_rx (rx : list (positive + list byte)) : Prop :=
  Forall (λ r, match r with inr (_ :: _) => True | _ => False end) rx.

(** ** Buffers in flight *)

(** The array a read pump is filling or about to hand over. *)
Definition owned (g : goroutine) : list nat :=
  match g with
  | ReadPump (RP_read buf) => [s_ptr buf]
  | ReadPump (RP_send p) => [s_ptr (Buf p)]
  | _ => []
  end.

(** The arrays of the read pumps and of the packets they have put into
    the Incoming Queue so far. *)
Definition pump_arrays (s : System) : list nat :=
  concat (owned <$> pumps s) ++
  ((λ p, s_ptr (Buf p)) <$> sent_on Incoming (trace (world s))).

(** No two of them are the same array, and all are allocated. *)
Definition heap_inv (s : System) : Prop :=
  NoDup (pump_arrays s) ∧
  Forall (λ a, a < length (heap (world s))) (pump_arrays s).

(** System calls, as opposed to log lines and queue history. *)
Definition is_syscall (e : event) : bool :=
  match e with
  | SysOpen _ _ _ | SysIoctl _ _ _ | SysRead _ _ _ | SysWrite _ _
  | SysClose _ => true
  | _ => false
  end.

(** What a call that only works on the queues leaves alone: the file,
    the arrays, the contexts, the descriptors and the device; it makes no
    system call. *)
Definition device_untouched (t : NetDevice) (w : World) (t' : NetDevice)
  (w' : World) : Prop :=
  file t' = file t ∧ heap w' = heap w ∧ ctxs w' = ctxs w ∧
  fds w' = fds w ∧ dev_rx w' = dev_rx w ∧ dev_tx w' = dev_tx w ∧
  ∃ evs, trace w' = trace w ++ evs ∧ Forall (λ e, is_syscall e = false) evs.

(** The program right after [NewTun] and [Bind] on a healthy kernel. *)
Definition bound_state : System :=
  mk_System bound_device (bound_world 0%N [])
            [ReadPump RP_select; WritePump WP_select] false.

(** A program whose read pump has delivered a first two-byte packet
    while the device has a second packet waiting; and the same program
    after the pump has delivered that one too and the first was read. *)
Definition delivered_state : System :=
  default (booted 0%N [])
    (run [CallBind; RunPump 0 0; RunPump 0 0; RunPump 0 0]
         (booted 0%N [inr [x01; x02]; inr [x03; x04; x05]])).
Definition delivered_again_state : System :=
  default (booted 0%N [])
    (run [RunPump 0 0; RunPump 0 0; RunPump 0 0; CallRead] delivered_state).

(** What the echo program keeps true: the device is reachable; the
    packets it has written, followed by the one it holds, are the
    packets it has read, in order; it has printed one dump per packet
    read; the token is not set and the file is open. *)
Definition echo_inv (p : Program) : Prop :=
  reachable (sys p) ∧
  sent_on Outgoing (trace (world (sys p))) ++ in_hand p =
    received_on Incoming (trace (world (sys p))) ∧
  length (stdout p) = length (received_on Incoming (trace (world (sys p)))) ∧
  (∃ c, ctx (dev (sys p)) = Some c ∧ Done_ready (world (sys p)) c = false) ∧
  f_closed (file (dev (sys p))) = false ∧
  f_fd (file (dev (sys p))) ∈ fds (world (sys p)).

(** What a healthy device adds: nothing has panicked, and every packet
    a read pump holds or has delivered has at least one byte. *)
Definition healthy_inv (p : Program) : Prop :=
  crashed (sys p) = false ∧
  healthy_rx (dev_rx (world (sys p))) ∧
  Forall (λ pkt, (1 <= N pkt)%N) (sent_on Incoming (trace (world (sys p)))) ∧
  Forall (λ g, match g with
               | ReadPump (RP_send pkt) => (1 <= N pkt)%N
               | _ => True
               end) (pumps (sys p)).

(** A schedule of the echo program: which thread takes each step. *)
Fixpoint program_run (sched : list (thread * nat)) (p : Program)
  : option Program :=
  match sched with
  | [] => Some p
  | (th, choice) :: sched =>
      match program_step th choice p with
      | Some p' => program_run sched p'
      | None => None
      end
  end.

(** The echo program on a device with two packets, after both were
    read from the device, echoed and written back. *)
Definition echo_world : World :=
  boot 0%N 0%N 0%N [inr [x01; x02]; inr [x03; x04; x05]].
Definition echo_schedule_main : list (thread * nat) :=
  [(PumpThread 0, 0); (PumpThread 0, 0); (PumpThread 0, 0); (MainThread, 0);
   (PumpThread 0, 0); (PumpThread 0, 0); (PumpThread 0, 0); (MainThread, 0);
   (PumpThread 1, 1); (MainThread, 0); (MainThread, 0); (PumpThread 1, 1)].
Definition echo_program_start : Program :=
  match main_start echo_world with
  | Started p => p
  | StartPanic _ _ => mk_Program (booted 0%N []) M_Read []
  end.
Definition echo_program : Program :=
  default echo_program_start (program_run echo_schedule_main echo_program_start).

(** ** Bytes through the echo program *)

(** The byte strings handed to write(2) so far, the byte strings the
    successful reads of a device script deliver into a buffer of
    [PACKET_SIZE] bytes, and the bytes a packet shows. *)
Definition writes_of (tr : list event) : list (list byte) :=
  omap (λ e, match e with SysWrite _ b => Some b | _ => None end) tr.
Definition datas (rx : list (positive + list byte)) : list (list byte) :=
  omap (λ r, match r with
             | inr d => Some (take PACKET_SIZE d)
             | inl _ => None
             end) rx.
Definition bytes_of (h : list (list byte)) (p : Packet) : list byte :=
  slice_bytes h (Buf p).

(** The bytes of the packet a read pump is about to send. *)
Definition pending (h : list (list byte)) (g : goroutine) : list (list byte) :=
  match g with
  | ReadPump (RP_send p) => [bytes_of h p]
  | _ => []
  end.

(** What the echo program keeps true of the bytes, on a device that
    started with the read script [rx0]: what the device delivered is
    what the packets sent into the Incoming Queue show, then what the
    read pump holds, then what the device has left; the writes made are
    the bytes of the packets taken out of the Outgoing Queue; the dumps
    printed are the bytes of the packets read. *)
Definition bytes_inv (rx0 : list (positive + list byte)) (p : Program) : Prop :=
  datas rx0 =
    (bytes_of (heap (world (sys p))) <$>
       sent_on Incoming (trace (world (sys p)))) ++
    concat (pending (heap (world (sys p))) <$> pumps (sys p)) ++
    datas (dev_rx (world (sys p))) ∧
  writes_of (trace (world (sys p))) =
    bytes_of (heap (world (sys p))) <$>
      received_on Outgoing (trace (world (sys p))) ∧
  stdout p =
    bytes_of (heap (world (sys p))) <$>
      received_on Incoming (trace (world (sys p))) ∧
  ∃ pc1 pc2, pumps (sys p) = [ReadPump pc1; WritePump pc2].

(** A device that accepts every write; and the events of a run on
    which nothing failed: every read and write was made on the
    descriptor [fd], and nothing was logged. *)
Definition healthy_tx (tx : list Errno) : Prop := Forall (λ e, e = 0%N) tx.
Definition on_device (fd : uintptr) (e : event) : Prop :=
  match e with
  | SysRead fd' _ _ | SysWrite fd' _ => fd' = fd
  | Log _ => False
  | _ => True
  end.

(** What the echo program keeps true on such a device. *)
Definition accepted_inv (p : Program) : Prop :=
  healthy_tx (dev_tx (world (sys p))) ∧
  Forall (on_device (f_fd (file (dev (sys p))))) (trace (world (sys p))).

(** * Properties *)

(** Comparisons and the two size constants stay folded in proofs. *)
#[local] Arguments Nat.ltb : simpl never.
#[local] Arguments Nat.leb : simpl never.
#[local] Arguments N.leb : simpl never.
#[local] Arguments N.eqb : simpl never.
#[local] Arguments N.of_nat : simpl never.
#[local] Arguments N.to_nat : simpl never.
#[local] Arguments PACKET_SIZE : simpl never.
#[local] Arguments QUEUE_SIZE : simpl never.

(** ** The constructor *)

Lemma NewTun_open_failure (w : World) :
  k_open w ≠ 0%N →
  NewTun w =
    (None,
     Some (OpenError ("open /dev/net/tun: " +:+ Errno_Error (k_open w))),
     emit (SysOpen "/dev/net/tun" O_RDWR 0%Z) w).
Proof.
  intros Hopen. unfold NewTun, os_OpenFile. cbn [k_open emit].
  apply N.eqb_neq in Hopen. by rewrite Hopen.
Qed.

Lemma NewTun_open_success (w : World) :
  k_open w = 0%N →
  let w' := emit (SysIoctl (k_fd w) TUNSETIFF tun0_ifreq)
              (set_fds (k_fd w :: fds w)
                 (emit (SysOpen "/dev/net/tun" O_RDWR 0%Z) w)) in
  NewTun w =
    if (k_ioctl w =? 0)%N
    then (Some (mk_NetDevice (mk_File (k_fd w) false) (make_chan QUEUE_SIZE)
                  (make_chan QUEUE_SIZE) None None), None, w')
    else (None, Some (ConfigError (Errno_Error (k_ioctl w))), w').
Proof.
  intros Hopen. unfold NewTun, os_OpenFile, Syscall_ioctl.
  cbn [k_open k_fd k_ioctl fds emit set_fds Fd f_closed f_fd].
  rewrite Hopen, N.eqb_refl.
  rewrite bool_decide_eq_true_2 by apply list_elem_of_here.
  cbn [k_ioctl set_fds emit].
  destruct (k_ioctl w =? 0)%N; reflexivity.
Qed.

(** C5: the constructor opens the control path and, when that succeeds,
    issues exactly one configuration request on the descriptor it got:
    request code TUNSETIFF, flags IFF_TUN | IFF_NO_PI = 0x1001, name
    "tun0" null-padded to 16 bytes.  It returns OpenError (and issues no
    request) when the open fails, and ConfigError when the request is
    rejected. *)
Theorem NewTun_configures_tun0 (w : World) :
  Z.lor IFF_TUN IFF_NO_PI = ifrFlags tun0_ifreq ∧
  length (ifrName tun0_ifreq) = 16 ∧
  ifrName tun0_ifreq = String.list_byte_of_string "tun0" ++ replicate 12 x00 ∧
  let '(t, err, w') := NewTun w in
  if (k_open w =? 0)%N
  then trace w' = trace w ++ [SysOpen "/dev/net/tun" O_RDWR 0%Z;
                              SysIoctl (k_fd w) TUNSETIFF tun0_ifreq] ∧
       if (k_ioctl w =? 0)%N
       then is_Some t ∧ err = None
       else t = None ∧ err = Some (ConfigError (Errno_Error (k_ioctl w)))
  else trace w' = trace w ++ [SysOpen "/dev/net/tun" O_RDWR 0%Z] ∧
       t = None ∧
       err = Some (OpenError ("open /dev/net/tun: " +:+ Errno_Error (k_open w))).
Proof.
  split; [reflexivity|]. split; [reflexivity|]. split; [reflexivity|].
  destruct (k_open w =? 0)%N eqn:Hopen.
  - apply N.eqb_eq in Hopen. rewrite (NewTun_open_success w Hopen).
    destruct (k_ioctl w =? 0)%N; cbn [trace emit set_fds];
      rewrite <- app_assoc; eauto.
  - apply N.eqb_neq in Hopen. rewrite (NewTun_open_failure w Hopen).
    by cbn [trace emit].
Qed.

(** C2: when the open succeeds and the configuration request fails, no
    device is returned, but the constructor returns the error with the
    descriptor it opened still in the descriptor table of the process:
    it issues no close. *)
Theorem NewTun_config_failure_leaks_fd (w : World) :
  k_open w = 0%N →
  k_ioctl w ≠ 0%N →
  ∃ w', NewTun w = (None, Some (ConfigError (Errno_Error (k_ioctl w))), w') ∧
        k_fd w ∈ fds w' ∧
        trace w' = trace w ++ [SysOpen "/dev/net/tun" O_RDWR 0%Z;
                               SysIoctl (k_fd w) TUNSETIFF tun0_ifreq].
Proof.
  intros Hopen Hioctl. rewrite (NewTun_open_success w Hopen).
  apply N.eqb_neq in Hioctl. rewrite Hioctl.
  eexists. split; [reflexivity|]. cbn [fds trace emit set_fds].
  split; [apply list_elem_of_here | by rewrite <- app_assoc].
Qed.

Lemma NewTun_config_failure_leaks_fd_witness :
  ∃ w', NewTun (boot 0%N 16%N 0%N []) =
          (None, Some (ConfigError (Errno_Error 16%N)), w') ∧
        3%N ∈ fds w' ∧
        trace w' = [SysOpen "/dev/net/tun" O_RDWR 0%Z;
                    SysIoctl 3%N TUNSETIFF tun0_ifreq].
Proof.
  apply (NewTun_config_failure_leaks_fd (boot 0%N 16%N 0%N [])).
  - reflexivity.
  - vm_compute. discriminate.
Defined.

(** ** Close *)

Lemma Close_spec (t : NetDevice) (w : World) :
  f_closed (file t) = false →
  let w1 := set_fds (filter (λ d, d ≠ f_fd (file t)) (fds w))
              (emit (SysClose (f_fd (file t))) w) in
  let t1 := set_file (mk_File (f_fd (file t)) true) t in
  Close t w =
    if (k_close w =? 0)%N
    then match cancel t with
         | Some c => Returns None t1 (call_cancel c w1)
         | None => Panics nil_dereference t1 w1
         end
    else Returns (Some (CloseError ("close /dev/net/tun: " +:+
                                    Errno_Error (k_close w)))) t1 w1.
Proof.
  intros Hopen. unfold Close, File_Close. rewrite Hopen.
  cbn [k_close set_fds emit]. by destruct (k_close w =? 0)%N.
Qed.

Lemma Close_sample :
  Close bound_device (bound_world 0%N []) = Returns None closed_device closed_world.
Proof. reflexivity. Qed.

(** C4: on a started engine whose handle cannot be released cleanly
    (close(2) answers a non-zero errno), [Close] returns CloseError and
    leaves the cancellation token as it was: a token that was not set
    stays unset, so the pumps are not told to stop. *)
Theorem Close_error_leaves_token_unset (t : NetDevice) (w : World) (c : nat) :
  ctx t = Some c →
  cancel t = Some c →
  ctxs w !! c = Some false →
  f_closed (file t) = false →
  k_close w ≠ 0%N →
  ∃ t' w', Close t w =
             Returns (Some (CloseError ("close /dev/net/tun: " +:+
                                        Errno_Error (k_close w)))) t' w' ∧
           f_closed (file t') = true ∧
           ctxs w' = ctxs w ∧
           Done_ready w' c = false.
Proof.
  intros _ _ Htoken Hopen Hclose. rewrite (Close_spec t w Hopen).
  apply N.eqb_neq in Hclose. rewrite Hclose.
  eexists _, _. split; [reflexivity|]. cbn [file set_file f_closed].
  split; [reflexivity|]. split; [reflexivity|].
  unfold Done_ready. cbn [ctxs set_fds emit]. by rewrite Htoken.
Qed.

Lemma Close_error_leaves_token_unset_witness :
  ∃ t' w', Close bound_device (bound_world 5%N []) =
             Returns (Some (CloseError ("close /dev/net/tun: " +:+
                                        Errno_Error 5%N))) t' w' ∧
           f_closed (file t') = true ∧
           ctxs w' = ctxs (bound_world 5%N []) ∧
           Done_ready w' 0 = false.
Proof.
  apply (Close_error_leaves_token_unset bound_device (bound_world 5%N []) 0).
  - reflexivity.
  - reflexivity.
  - reflexivity.
  - reflexivity.
  - vm_compute. discriminate.
Defined.

(** ** Write *)

Lemma can_send_open (q : chan) :
  c_closed q = false → can_send q = (length (c_buf q) <? c_cap q).
Proof. intros Hq. unfold can_send. by rewrite Hq. Qed.

(** C3 as stated fails: after a successful [Close] of a started engine
    the token is set, and [Write] with room in the Outgoing Queue may
    still pick the send case, enqueue the packet and return success. *)
Lemma Write_after_Close_may_enqueue :
  ¬ (∀ (choice : nat) (pkt : Packet) (t : NetDevice) (w : World) (c : nat),
       ctx t = Some c →
       ctxs w !! c = Some true →
       ∃ t' w', Write choice pkt t w = Returns (Some DeviceClosedError) t' w').
Proof.
  intros H.
  destruct (H 0 abc_packet closed_device closed_world 0 eq_refl eq_refl)
    as (t' & w' & Heq).
  vm_compute in Heq. discriminate Heq.
Qed.

(** C3, amended: on a started engine [Write] is a two-way race.  With
    the token set it never blocks: it fails with DeviceClosedError when
    the Outgoing Queue is full, and with room in the queue it either
    enqueues and succeeds or fails with DeviceClosedError, whichever case
    the [select] picks.  With the token not set and room in the queue it
    enqueues the packet at the tail and succeeds; with the token not set
    and the queue full it blocks. *)
Theorem Write_races_cancellation
  (choice : nat) (pkt : Packet) (t : NetDevice) (w : World) (c : nat) :
  ctx t = Some c →
  c_closed (outgoingQueue t) = false →
  let q := outgoingQueue t in
  let enqueued :=
    Returns None
      (set_outgoingQueue (mk_chan (c_buf q ++ [pkt]) (c_cap q) false) t)
      (emit (Sent Outgoing pkt) w) in
  let refused := Returns (Some DeviceClosedError) t w in
  Write choice pkt t w =
    match Done_ready w c, length (c_buf q) <? c_cap q with
    | true, true => if Nat.even choice then enqueued else refused
    | true, false => refused
    | false, true => enqueued
    | false, false => Blocks
    end.
Proof.
  intros Hctx Hopen. unfold Write, chan_send.
  rewrite Hctx, (can_send_open _ Hopen), Hopen.
  destruct (Done_ready w c), (length (c_buf (outgoingQueue t)) <? c_cap (outgoingQueue t)) eqn:Hroom;
    cbn [go_select]; rewrite ?Hroom; try reflexivity.
  destruct (Nat.even choice); by rewrite ?Hroom.
Qed.

Lemma Write_races_cancellation_witness :
  Write 1 abc_packet closed_device closed_world =
    Returns (Some DeviceClosedError) closed_device closed_world.
Proof.
  exact (Write_races_cancellation 1 abc_packet closed_device closed_world 0
           eq_refl eq_refl).
Defined.

(** ** Effects of the operations on the queues *)

Lemma sent_on_app (q : queue_id) (tr evs : list event) :
  sent_on q (tr ++ evs) = sent_on q tr ++ sent_on q evs.
Proof. apply omap_app. Qed.

Lemma received_on_app (q : queue_id) (tr evs : list event) :
  received_on q (tr ++ evs) = received_on q tr ++ received_on q evs.
Proof. apply omap_app. Qed.

Lemma sent_on_emit (q : queue_id) (e : event) (w : World) :
  sent_on q (trace (emit e w)) = sent_on q (trace w) ++ sent_on q [e].
Proof. apply sent_on_app. Qed.

Lemma received_on_emit (q : queue_id) (e : event) (w : World) :
  received_on q (trace (emit e w)) =
  received_on q (trace w) ++ received_on q [e].
Proof. apply received_on_app. Qed.

Lemma silent_nil : silent [].
Proof. by intros q. Qed.

Lemma silent_app (a b : list event) : silent a → silent b → silent (a ++ b).
Proof.
  intros Ha Hb q. destruct (Ha q) as [Hs1 Hr1], (Hb q) as [Hs2 Hr2].
  by rewrite sent_on_app, received_on_app, Hs1, Hr1, Hs2, Hr2.
Qed.

Lemma extends_silently_refl (w : World) : extends_silently w w.
Proof. exists []. split; [by rewrite app_nil_r | apply silent_nil]. Qed.

Lemma extends_silently_trans (w1 w2 w3 : World) :
  extends_silently w1 w2 → extends_silently w2 w3 → extends_silently w1 w3.
Proof.
  intros (e1 & H1 & S1) (e2 & H2 & S2). exists (e1 ++ e2).
  split; [by rewrite H2, H1, app_assoc | by apply silent_app].
Qed.

Lemma extends_silently_log (prefix : string) (err : option error) (w : World) :
  extends_silently w (log_Printf prefix err w).
Proof.
  destruct err as [e|]; [|apply extends_silently_refl].
  exists [Log (prefix +:+ e)]. split; [reflexivity | by intros q].
Qed.

Lemma effect_refl (t : NetDevice) (w : World) : effect t w t w.
Proof. by apply eff_quiet. Qed.

Lemma effect_silent (t : NetDevice) (w : World) (t' : NetDevice) (w' w'' : World) :
  effect t w t' w' → extends_silently w' w'' → effect t w t' w''.
Proof.
  intros Heff (evs & Htr & Hev).
  assert (Hs : ∀ q, sent_on q (trace w'') = sent_on q (trace w')).
  { intros q. by rewrite Htr, sent_on_app, (proj1 (Hev q)), app_nil_r. }
  assert (Hr : ∀ q, received_on q (trace w'') = received_on q (trace w')).
  { intros q. by rewrite Htr, received_on_app, (proj2 (Hev q)), app_nil_r. }
  destruct Heff as [Hq H1 H2 | q p Hc Hl Hq Ho H1 H2 H3 | q p Hb Hc Hd Ho H1 H2 H3].
  - apply eff_quiet; intros q; rewrite ?Hs, ?Hr; eauto.
  - apply (eff_send _ _ _ _ q p); try done; intros; rewrite ?Hs, ?Hr; eauto.
  - apply (eff_recv _ _ _ _ q p); try done; intros; rewrite ?Hs, ?Hr; eauto.
Qed.

Lemma keeps_refl (t : NetDevice) (w : World) : keeps t w t w.
Proof. split; [apply effect_refl | done]. Qed.

Lemma keeps_incoming_refl (t : NetDevice) (w : World) : keeps_incoming t w t w.
Proof. split; [apply keeps_refl | done]. Qed.

Lemma keeps_incoming_silent (t : NetDevice) (w : World) (t' : NetDevice)
  (w' w'' : World) :
  keeps_incoming t w t' w' → extends_silently w' w'' →
  keeps_incoming t w t' w''.
Proof.
  intros [(Heff & Hctx & Hcancel) Hin] Hext. split; [split|].
  - by eapply effect_silent.
  - done.
  - destruct Hext as (evs & -> & Hev).
    by rewrite sent_on_app, (proj1 (Hev Incoming)), app_nil_r.
Qed.

(** Normalise the projections of updated worlds and devices. *)
Ltac simpl_state :=
  cbn [trace heap ctxs fds k_open k_fd k_ioctl k_close dev_rx dev_tx
       set_heap set_ctxs set_fds set_dev_rx set_dev_tx call_cancel
       file incomingQueue outgoingQueue ctx cancel queue_of
       set_file set_incomingQueue set_outgoingQueue
       c_buf c_cap c_closed] in *.

(** Close a goal [extends_silently w w'] where [w'] is [w] with some
    fields updated and system-call or log events emitted. *)
Ltac silently :=
  lazymatch goal with
  | |- extends_silently ?w ?w' =>
      let tr := eval cbn [trace heap ctxs fds k_open k_fd k_ioctl k_close
                          dev_rx dev_tx set_heap set_ctxs set_fds set_dev_rx
                          set_dev_tx call_cancel emit] in (trace w') in
      lazymatch tr with
      | trace w =>
          exists []; split; [symmetry; apply app_nil_r | apply silent_nil]
      | trace w ++ ?evs =>
          exists evs; split; [reflexivity | by intros []]
      | (trace w ++ ?e1) ++ ?e2 =>
          exists (e1 ++ e2); split;
          [cbn [trace emit]; by rewrite <- app_assoc | by intros []]
      end
  end.

Lemma set_incomingQueue_same (t : NetDevice) :
  set_incomingQueue (incomingQueue t) t = t.
Proof. by destruct t. Qed.

Lemma set_outgoingQueue_same (t : NetDevice) :
  set_outgoingQueue (outgoingQueue t) t = t.
Proof. by destruct t. Qed.

Lemma Read_effect (t : NetDevice) (w : World) :
  post (keeps_incoming t w) (Read t w).
Proof.
  unfold Read, chan_recv.
  destruct (c_buf (incomingQueue t)) as [|p rest] eqn:Hbuf.
  - destruct (c_closed (incomingQueue t)); cbn; [|done].
    rewrite set_incomingQueue_same. apply keeps_incoming_refl.
  - cbn. split; [split; [|done]|].
    + apply (eff_recv _ _ _ _ Incoming p); simpl_state; try done.
      * by intros [] ?.
      * rewrite received_on_emit. cbn. by rewrite bool_decide_eq_true_2.
      * intros [] ?; [done|]. rewrite received_on_emit. cbn. by rewrite app_nil_r.
      * intros q'. rewrite sent_on_emit. cbn. by rewrite app_nil_r.
    + rewrite sent_on_emit. cbn. by rewrite app_nil_r.
Qed.

Lemma Write_effect (choice : nat) (pkt : Packet) (t : NetDevice) (w : World) :
  post (keeps_incoming t w) (Write choice pkt t w).
Proof.
  unfold Write. destruct (ctx t) as [c|] eqn:Hctx; cbn;
    [|apply keeps_incoming_refl].
  destruct (go_select _ _ _); cbn; try done; try apply keeps_incoming_refl.
  unfold chan_send. destruct (c_closed (outgoingQueue t)) eqn:Hcl; cbn;
    [apply keeps_incoming_refl|].
  destruct (length (c_buf (outgoingQueue t)) <? c_cap (outgoingQueue t)) eqn:Hroom;
    cbn; [|done].
  apply Nat.ltb_lt in Hroom. split; [split; [|done]|].
  - apply (eff_send _ _ _ _ Outgoing pkt); simpl_state; try done.
    + by intros [] ?.
    + rewrite sent_on_emit. cbn. by rewrite bool_decide_eq_true_2.
    + intros [] ?; [|done]. rewrite sent_on_emit. cbn. by rewrite app_nil_r.
    + intros q'. rewrite received_on_emit. cbn. by rewrite app_nil_r.
  - rewrite sent_on_emit. cbn. by rewrite app_nil_r.
Qed.

Lemma set_file_keeps (f : File) (t : NetDevice) (w w' : World) :
  extends_silently w w' → keeps_incoming t w (set_file f t) w'.
Proof.
  intros Hext. apply (keeps_incoming_silent _ _ _ w); [|done].
  split; [split; [|done]|done]. apply eff_quiet; intros q; by destruct q.
Qed.

Lemma Close_effect (t : NetDevice) (w : World) :
  post (keeps_incoming t w) (Close t w).
Proof.
  unfold Close, File_Close. destruct (f_closed (file t)); cbn.
  - apply set_file_keeps, extends_silently_refl.
  - destruct (k_close w =? 0)%N; cbn; [destruct (cancel t) eqn:Hc; cbn|];
      apply set_file_keeps; silently.
Qed.

Lemma Bind_effect (t : NetDevice) (w : World) :
  effect t w (Bind t w).1.1 (Bind t w).1.2 ∧
  sent_on Incoming (trace (Bind t w).1.2) = sent_on Incoming (trace w).
Proof.
  unfold Bind, context_WithCancel. cbn. split; [|done].
  apply eff_quiet; intros q; by destruct q.
Qed.

(** ** Effects of the pump steps *)

Lemma read_frame (buf : slice) (t : NetDevice) (w : World) :
  post (λ t' w', t' = t ∧ extends_silently w w') (read buf t w).
Proof.
  unfold read, Syscall_read.
  repeat case_match; simplify_eq; cbn; try done; (split; [done|silently]).
Qed.

Lemma write_frame (buf : slice) (t : NetDevice) (w : World) :
  post (λ t' w', t' = t ∧ extends_silently w w') (write buf t w).
Proof.
  unfold write, Syscall_write.
  repeat case_match; simplify_eq; cbn; try done; (split; [done|silently]).
Qed.

Lemma read_pump_step_effect (pc : rp_pc) (t : NetDevice) (w : World) :
  post (λ t' w',
          keeps t w t' w' ∧
          sent_on Incoming (trace w') =
            sent_on Incoming (trace w) ++ rp_sends pc (read_pump_step pc t w))
       (read_pump_step pc t w).
Proof.
  destruct pc as [|buf|p|]; cbn [read_pump_step].
  - destruct (ctx t) as [c|]; cbn; [|by rewrite app_nil_r; split; [apply keeps_refl|]].
    destruct (Done_ready w c); cbn; rewrite app_nil_r;
      [split; [apply keeps_refl|done]|].
    apply (keeps_incoming_silent t w t w); [apply keeps_incoming_refl|silently].
  - pose proof (read_frame buf t w) as Hfr.
    destruct (read buf t w) as [[n err] t1 w1|msg t1 w1|]; cbn in Hfr |- *;
      [|destruct Hfr as [-> Hext]|done].
    + destruct Hfr as [-> Hext].
      assert (Hext' : extends_silently w (log_Printf "read error: " err w1)).
      { eapply extends_silently_trans; [done|apply extends_silently_log]. }
      pose proof (keeps_incoming_silent t w t w _ (keeps_incoming_refl t w) Hext')
        as [Hk Hin].
      destruct (reslice buf n); cbn; by rewrite app_nil_r.
    + pose proof (keeps_incoming_silent t w t w _ (keeps_incoming_refl t w) Hext)
        as [Hk Hin].
      by rewrite app_nil_r.
  - unfold chan_send. destruct (c_closed (incomingQueue t)) eqn:Hcl; cbn;
      [by rewrite app_nil_r; split; [apply keeps_refl|]|].
    destruct (length (c_buf (incomingQueue t)) <? c_cap (incomingQueue t)) eqn:Hroom;
      cbn; [|done].
    apply Nat.ltb_lt in Hroom. split; [split; [|done]|].
    + apply (eff_send _ _ _ _ Incoming p); simpl_state; try done.
      * by intros [] ?.
      * rewrite sent_on_emit. cbn. by rewrite bool_decide_eq_true_2.
      * intros [] ?; [done|]. rewrite sent_on_emit. cbn. by rewrite app_nil_r.
      * intros q'. rewrite received_on_emit. cbn. by rewrite app_nil_r.
    + fold (sent_on Incoming (trace w ++ [Sent Incoming p])).
      rewrite sent_on_app. cbn. by rewrite bool_decide_eq_true_2.
  - done.
Qed.

Lemma write_pump_step_effect (choice : nat) (pc : wp_pc) (t : NetDevice)
  (w : World) :
  post (keeps_incoming t w) (write_pump_step choice pc t w).
Proof.
  destruct pc; cbn [write_pump_step]; [|done].
  destruct (ctx t) as [c|]; cbn; [|apply keeps_incoming_refl].
  destruct (go_select _ _ _); cbn; [apply keeps_incoming_refl| |done].
  unfold chan_recv.
  destruct (c_buf (outgoingQueue t)) as [|p rest] eqn:Hbuf.
  - destruct (c_closed (outgoingQueue t)); cbn; [|done].
    rewrite set_outgoingQueue_same.
    destruct (reslice nil_slice 0%N) as [b|]; cbn; [|apply keeps_incoming_refl].
    pose proof (write_frame b t w) as Hfr.
    destruct (write b t w) as [[n err] t1 w1|msg t1 w1|]; cbn in Hfr |- *;
      [| |done]; destruct Hfr as [-> Hext];
      (eapply keeps_incoming_silent; [apply keeps_incoming_refl|]); [|done].
    eapply extends_silently_trans; [done|apply extends_silently_log].
  - cbn.
    set (t1 := set_outgoingQueue _ t). set (w1 := emit _ w).
    assert (K : keeps_incoming t w t1 w1).
    { subst t1 w1. split; [split; [|done]|].
      - apply (eff_recv _ _ _ _ Outgoing p); simpl_state; try done.
        + by intros [] ?.
        + rewrite received_on_emit. cbn. by rewrite bool_decide_eq_true_2.
        + intros [] ?; [|done]. rewrite received_on_emit. cbn. by rewrite app_nil_r.
        + intros q'. rewrite sent_on_emit. cbn. by rewrite app_nil_r.
      - rewrite sent_on_emit. cbn. by rewrite app_nil_r. }
    destruct (reslice (Buf p) (N p)) as [b|]; cbn; [|done].
    pose proof (write_frame b t1 w1) as Hfr.
    destruct (write b t1 w1) as [[n err] t2 w2|msg t2 w2|]; cbn in Hfr |- *;
      [| |done]; destruct Hfr as [-> Hext];
      (eapply keeps_incoming_silent; [exact K|]); [|done].
    eapply extends_silently_trans; [done|apply extends_silently_log].
Qed.

Lemma reslice_Some (s b : slice) (n : uintptr) :
  reslice s n = Some b →
  (n <= N.of_nat (s_cap s))%N ∧
  b = {| s_ptr := s_ptr s; s_len := N.to_nat n; s_cap := s_cap s |}.
Proof.
  unfold reslice. destruct (n <=? N.of_nat (s_cap s))%N eqn:Hle; [|done].
  apply N.leb_le in Hle. by intros [= <-].
Qed.

Lemma read_pump_step_ok (pc : rp_pc) (t : NetDevice) (w : World)
  (pc' : rp_pc) (t' : NetDevice) (w' : World) :
  rp_ok pc → read_pump_step pc t w = Returns pc' t' w' → rp_ok pc'.
Proof.
  destruct pc as [|buf|p|]; cbn [read_pump_step rp_ok].
  - intros _. destruct (ctx t); [|done].
    destruct (Done_ready w n); cbn; intros [= <- <- <-]; done.
  - intros [Hlen Hcap].
    destruct (read buf t w) as [[n err] t1 w1|msg t1 w1|]; [|done|done].
    destruct (reslice buf n) as [b|] eqn:Hre; [|done].
    apply reslice_Some in Hre as [Hle ->]. intros [= <- <- <-].
    cbn. unfold produced. cbn. rewrite N2Nat.id. split_and!; [done| lia |done].
  - intros _. destruct (chan_send _ _); [|done|done]. by intros [= <- <- <-].
  - done.
Qed.

(** ** The invariant of the running program *)

Lemma effect_queue_inv (t : NetDevice) (w : World) (t' : NetDevice) (w' : World) :
  queue_inv t w → effect t w t' w' → queue_inv t' w'.
Proof.
  intros Hinv [Hq H1 H2 | q p Hc Hl Hq Ho H1 H2 H3 | q p Hb Hc Hd Ho H1 H2 H3] q0;
    destruct (Hinv q0) as (Hcap & Hcl & Hlen & Hfifo).
  - by rewrite Hq, H1, H2.
  - destruct (decide (q0 = q)) as [->|Hne].
    + rewrite Hq, H1, H3. cbn. rewrite length_app. cbn.
      split_and!; [done|done|lia|]. by rewrite Hfifo, app_assoc.
    + by rewrite (Ho _ Hne), (H2 _ Hne), H3.
  - destruct (decide (q0 = q)) as [->|Hne].
    + rewrite Hc, Hd, H1, H3. rewrite Hb in Hlen, Hfifo. cbn in Hlen.
      split_and!; [done|done|lia|]. by rewrite Hfifo, <- app_assoc.
    + by rewrite (Ho _ Hne), (H2 _ Hne), H3.
Qed.

Lemma NewTun_Some (w : World) (t : NetDevice) (w' : World) :
  NewTun w = (Some t, None, w') →
  t = mk_NetDevice (mk_File (k_fd w) false) (make_chan QUEUE_SIZE)
        (make_chan QUEUE_SIZE) None None ∧
  trace w' = trace w ++ [SysOpen "/dev/net/tun" O_RDWR 0%Z;
                         SysIoctl (k_fd w) TUNSETIFF tun0_ifreq].
Proof.
  destruct (decide (k_open w = 0%N)) as [Hopen|Hopen].
  - rewrite (NewTun_open_success w Hopen).
    destruct (k_ioctl w =? 0)%N; [|done]. intros [= <- <-].
    split; [done|]. cbn [trace emit set_fds]. by rewrite <- app_assoc.
  - by rewrite (NewTun_open_failure w Hopen).
Qed.

Lemma NewTun_sys_inv (w : World) (t : NetDevice) (w' : World) :
  trace w = [] → NewTun w = (Some t, None, w') →
  sys_inv (mk_System t w' [] false).
Proof.
  intros Htr [-> Htr']%NewTun_Some. rewrite Htr in Htr'.
  unfold sys_inv. cbn [dev world pumps]. rewrite Htr'. split_and!.
  - intros q. rewrite Htr'. destruct q; cbn; split_and!; try done; lia.
  - constructor.
  - constructor.
Qed.

Lemma sys_inv_keeps_incoming (s : System) (t' : NetDevice) (w' : World) (c : bool) :
  sys_inv s → keeps_incoming (dev s) (world s) t' w' →
  sys_inv (mk_System t' w' (pumps s) c).
Proof.
  intros (Hq & Hp & Hs) [(Heff & _) Hin]. unfold sys_inv. cbn [dev world pumps].
  rewrite Hin. split_and!; [by eapply effect_queue_inv|done|done].
Qed.

Lemma sys_step_inv (a : action) (s : System) (o : observation) (s' : System) :
  sys_inv s → sys_step a s = Some (o, s') → sys_inv s'.
Proof.
  intros Hinv. unfold sys_step. destruct (crashed s); [done|].
  destruct a as [| |choice pkt| |i choice].
  - destruct (Bind (dev s) (world s)) as [[t w] gs] eqn:HB.
    intros [= <- <-]. destruct Hinv as (Hq & Hp & Hs).
    pose proof (Bind_effect (dev s) (world s)) as [Heff Hin].
    rewrite HB in Heff, Hin. cbn in Heff, Hin.
    unfold sys_inv. cbn [dev world pumps]. rewrite Hin. split_and!.
    + by eapply effect_queue_inv.
    + apply Forall_app. split; [done|]. unfold Bind in HB.
      destruct (context_WithCancel (world s)). injection HB as <- <- <-.
      by repeat constructor.
    + done.
  - pose proof (Read_effect (dev s) (world s)) as HR.
    destruct (Read (dev s) (world s)) as [[pkt err] t w|msg t w|]; [| |done];
      intros [= <- <-]; by apply sys_inv_keeps_incoming.
  - pose proof (Write_effect choice pkt (dev s) (world s)) as HW.
    destruct (Write choice pkt (dev s) (world s)) as [err t w|msg t w|]; [| |done];
      intros [= <- <-]; by apply sys_inv_keeps_incoming.
  - pose proof (Close_effect (dev s) (world s)) as HC.
    destruct (Close (dev s) (world s)) as [err t w|msg t w|]; [| |done];
      intros [= <- <-]; by apply sys_inv_keeps_incoming.
  - destruct (pumps s !! i) as [g|] eqn:Hg; [|done].
    destruct Hinv as (Hq & Hp & Hs).
    assert (Hgok : pump_ok g) by (by eapply Forall_lookup_1).
    destruct g as [pc|pc]; cbn [run_goroutine].
    + pose proof (read_pump_step_effect pc (dev s) (world s)) as HR.
      pose proof (read_pump_step_ok pc (dev s) (world s)) as Hok.
      destruct (read_pump_step pc (dev s) (world s)) as [pc' t w|msg t w|];
        [| |done]; intros [= <- <-]; cbn in HR;
        destruct HR as [(Heff & _) Hin]; unfold sys_inv; cbn [dev world pumps];
        rewrite Hin.
      * split_and!; [by eapply effect_queue_inv| |].
        -- apply Forall_insert; [done|]. by eapply Hok.
        -- apply Forall_app. split; [done|].
           destruct pc; cbn; try constructor; [exact Hgok|constructor].
      * split_and!; [by eapply effect_queue_inv|done|].
        apply Forall_app. split; [done|]. destruct pc; constructor.
    + pose proof (write_pump_step_effect choice pc (dev s) (world s)) as HW.
      destruct (write_pump_step choice pc (dev s) (world s)) as [pc' t w|msg t w|];
        [| |done]; intros [= <- <-].
      * destruct (sys_inv_keeps_incoming s t w false (conj Hq (conj Hp Hs)) HW)
          as (Hq' & Hp' & Hs').
        unfold sys_inv. cbn [dev world pumps] in *. split_and!; [done| |done].
        by apply Forall_insert.
      * by apply sys_inv_keeps_incoming.
Qed.

Lemma reachable_sys_inv (s : System) : reachable s → sys_inv s.
Proof.
  induction 1 as [w t w' Htr Hnew | s a o s' _ IH Hstep].
  - by eapply NewTun_sys_inv.
  - by eapply sys_step_inv.
Qed.

(** ** Reachable states *)

Lemma run_reachable (acts : list action) (s s' : System) :
  reachable s → run acts s = Some s' → reachable s'.
Proof.
  revert s. induction acts as [|a acts IH]; intros s Hs; cbn [run].
  - by intros [= <-].
  - destruct (sys_step a s) as [[o s1]|] eqn:Hstep; [|done].
    apply IH. by eapply reach_step.
Qed.

Lemma booted_reachable (close_errno : Errno) (rx : list (positive + list byte)) :
  reachable (booted close_errno rx).
Proof. by apply (reach_NewTun (boot 0%N 0%N close_errno rx)). Qed.

(** ** The queues *)

(** C9: a device has the two packet queues of its struct, Incoming and
    Outgoing.  From construction on, through every call of the public
    API and every pump step, each of them has capacity [QUEUE_SIZE] =
    10, holds at most 10 packets, and is first-in first-out: the packets
    received from it so far, followed by the packets it holds, are the
    packets sent into it so far, in the order they were sent. *)
Theorem queues_bounded_fifo (s : System) (q : queue_id) :
  reachable s →
  QUEUE_SIZE = 10 ∧
  c_cap (queue_of q (dev s)) = QUEUE_SIZE ∧
  length (c_buf (queue_of q (dev s))) ≤ 10 ∧
  received_on q (trace (world s)) ++ c_buf (queue_of q (dev s)) =
    sent_on q (trace (world s)).
Proof.
  intros Hs. destruct (reachable_sys_inv s Hs) as (Hq & _ & _).
  destruct (Hq q) as (Hcap & _ & Hlen & Hfifo).
  rewrite Hcap in Hlen. by split_and!.
Qed.

Lemma queues_bounded_fifo_witness :
  QUEUE_SIZE = 10 ∧
  c_cap (queue_of Outgoing (dev echo_state)) = QUEUE_SIZE ∧
  length (c_buf (queue_of Outgoing (dev echo_state))) ≤ 10 ∧
  received_on Outgoing (trace (world echo_state)) ++
    c_buf (queue_of Outgoing (dev echo_state)) =
    sent_on Outgoing (trace (world echo_state)).
Proof.
  apply (queues_bounded_fifo echo_state Outgoing).
  apply (run_reachable echo_schedule (booted 0%N [inr [x01; x02]])).
  - apply (reach_NewTun (boot 0%N 0%N 0%N [inr [x01; x02]])); reflexivity.
  - vm_compute. reflexivity.
Defined.

(** ** Read *)

Lemma Read_spec (t : NetDevice) (w : World) :
  Read t w =
    match c_buf (incomingQueue t) with
    | p :: rest =>
        Returns (p, None)
          (set_incomingQueue
             (mk_chan rest (c_cap (incomingQueue t)) (c_closed (incomingQueue t))) t)
          (emit (Received Incoming p) w)
    | [] =>
        if c_closed (incomingQueue t)
        then Returns (Packet_zero, Some QueueClosedError) t w
        else Blocks
    end.
Proof.
  unfold Read, chan_recv. destruct (c_buf (incomingQueue t)); [|done].
  destruct (c_closed (incomingQueue t)); [|done].
  cbn. by rewrite set_incomingQueue_same.
Qed.

Lemma Close_keeps_queues (t : NetDevice) (w : World) :
  post (λ t' _, incomingQueue t' = incomingQueue t ∧
                outgoingQueue t' = outgoingQueue t) (Close t w).
Proof.
  unfold Close, File_Close.
  destruct (f_closed (file t)); cbn; [done|].
  destruct (k_close w =? 0)%N; cbn; [|done]. by destruct (cancel t).
Qed.

(** C8: [Read] returns the oldest packet of the Incoming Queue when
    there is one; with none available it fails with QueueClosedError
    exactly when the queue is closed, and blocks otherwise.  [Close]
    leaves both queues as they are, and no state the program reaches
    through the public API has the Incoming Queue closed: there [Read],
    also after a shutdown, never returns an error, and blocks when the
    queue is empty. *)
Theorem Read_never_fails_when_reachable (s : System) :
  reachable s →
  (∀ t w,
     match c_buf (incomingQueue t) with
     | p :: rest => ∃ t', Read t w = Returns (p, None) t' (emit (Received Incoming p) w) ∧
                          c_buf (incomingQueue t') = rest
     | [] => (Read t w = Returns (Packet_zero, Some QueueClosedError) t w ↔
              c_closed (incomingQueue t) = true) ∧
             (Read t w = Blocks ↔ c_closed (incomingQueue t) = false)
     end) ∧
  (∀ t w, post (λ t' _, incomingQueue t' = incomingQueue t) (Close t w)) ∧
  c_closed (incomingQueue (dev s)) = false ∧
  (∀ pkt e t' w', Read (dev s) (world s) ≠ Returns (pkt, Some e) t' w') ∧
  (c_buf (incomingQueue (dev s)) = [] → Read (dev s) (world s) = Blocks).
Proof.
  intros Hs. destruct (reachable_sys_inv s Hs) as (Hq & _ & _).
  destruct (Hq Incoming) as (_ & Hopen & _). cbn [queue_of] in Hopen.
  split_and!.
  - intros t w. rewrite Read_spec.
    destruct (c_buf (incomingQueue t)) as [|p rest]; [|by eexists].
    by destruct (c_closed (incomingQueue t)).
  - intros t w. pose proof (Close_keeps_queues t w) as HC.
    destruct (Close t w); cbn in *; [apply HC|apply HC|done].
  - done.
  - intros pkt e t' w'. rewrite Read_spec, Hopen.
    by destruct (c_buf (incomingQueue (dev s))).
  - intros Hempty. by rewrite Read_spec, Hempty, Hopen.
Qed.

Lemma Read_never_fails_when_reachable_witness :
  c_closed (incomingQueue (dev shutdown_state)) = false ∧
  Done_ready (world shutdown_state) 0 = true ∧
  Read (dev shutdown_state) (world shutdown_state) = Blocks.
Proof.
  destruct (Read_never_fails_when_reachable shutdown_state)
    as (_ & _ & Hopen & _ & Hblocks).
  - apply (run_reachable [CallBind; CallClose] (booted 0%N [])).
    + apply (reach_NewTun (boot 0%N 0%N 0%N [])); reflexivity.
    + vm_compute. reflexivity.
  - split; [exact Hopen|]. split; [reflexivity|]. apply Hblocks. reflexivity.
Defined.

(** ** The read pump *)

Lemma read_pump_select_alloc (t : NetDevice) (w : World) (c : nat) :
  ctx t = Some c → Done_ready w c = false →
  read_pump_step RP_select t w =
    Returns (RP_read (mk_slice (length (heap w)) PACKET_SIZE PACKET_SIZE)) t
            (make_bytes PACKET_SIZE w).2.
Proof. intros Hctx Hdone. cbn [read_pump_step]. by rewrite Hctx, Hdone. Qed.

Lemma make_bytes_fresh (n : nat) (w : World) :
  heap w !! length (heap w) = None ∧
  heap (make_bytes n w).2 !! length (heap w) = Some (replicate n x00) ∧
  trace (make_bytes n w).2 = trace w.
Proof.
  split_and!.
  - by apply lookup_ge_None.
  - cbn. by rewrite lookup_app_r, Nat.sub_diag.
  - done.
Qed.

(** read(2) never reports more bytes than it was asked for. *)
Lemma Syscall_read_bound (fd : uintptr) (buf count : nat) (w : World)
  (n : uintptr) (w' : World) :
  Syscall_read fd buf count w = Some (n, 0%N, w') →
  (n <= N.of_nat count)%N.
Proof.
  unfold Syscall_read. destruct (bool_decide (fd ∈ fds w)); [|done].
  destruct (dev_rx w) as [|[e|data] rx]; [done|done|].
  intros [= <- _]. lia.
Qed.

Lemma read_pump_send_spec (p : Packet) (t : NetDevice) (w : World) :
  c_closed (incomingQueue t) = false →
  read_pump_step (RP_send p) t w =
    if length (c_buf (incomingQueue t)) <? c_cap (incomingQueue t)
    then Returns RP_select
           (set_incomingQueue
              (mk_chan (c_buf (incomingQueue t) ++ [p])
                       (c_cap (incomingQueue t)) false) t)
           (emit (Sent Incoming p) w)
    else Blocks.
Proof.
  intros Hopen. cbn [read_pump_step]. unfold chan_send. rewrite Hopen.
  by destruct (_ <? _).
Qed.

Lemma reachable_produced (s : System) :
  reachable s →
  Forall produced (sent_on Incoming (trace (world s))) ∧
  Forall produced (c_buf (incomingQueue (dev s))).
Proof.
  intros Hs. destruct (reachable_sys_inv s Hs) as (Hq & _ & Hsent).
  split; [done|]. destruct (Hq Incoming) as (_ & _ & _ & Hfifo).
  rewrite Hfifo in Hsent. by apply Forall_app in Hsent as [_ ?].
Qed.

(** C6: an iteration of the read pump that finds the token unset
    allocates a new zeroed buffer of [PACKET_SIZE] = 2048 bytes at an
    address not in use before, and reads into it.  When that raw read
    succeeds with [n] bytes, the packet the pump builds has a buffer of
    length [n] over the same array and length field [n], with [n] at
    most the capacity 2048; and it is this packet that the pump puts at
    the tail of the Incoming Queue (waiting while the queue is full).
    In every state the program reaches, every packet the pump has put
    into the Incoming Queue has its length field equal to the length of
    its buffer, within the capacity. *)
Theorem read_pump_packet_has_read_length
  (t : NetDevice) (w : World) (c : nat) (n : uintptr) (w2 : World) :
  ctx t = Some c →
  Done_ready w c = false →
  c_closed (incomingQueue t) = false →
  Syscall_read (Fd (file t)) (length (heap w)) PACKET_SIZE
               (make_bytes PACKET_SIZE w).2 = Some (n, 0%N, w2) →
  let buf := mk_slice (length (heap w)) PACKET_SIZE PACKET_SIZE in
  let pkt := mk_Packet (mk_slice (length (heap w)) (N.to_nat n) PACKET_SIZE) n in
  PACKET_SIZE = 2048 ∧
  read_pump_step RP_select t w = Returns (RP_read buf) t (make_bytes PACKET_SIZE w).2 ∧
  heap w !! s_ptr buf = None ∧
  heap (make_bytes PACKET_SIZE w).2 !! s_ptr buf = Some (replicate PACKET_SIZE x00) ∧
  read_pump_step (RP_read buf) t (make_bytes PACKET_SIZE w).2 =
    Returns (RP_send pkt) t w2 ∧
  N.of_nat (s_len (Buf pkt)) = n ∧
  N pkt = n ∧
  (N pkt <= N.of_nat (s_cap (Buf pkt)))%N ∧
  slice_bytes (heap w2) (Buf pkt) = take (N.to_nat n) (backing (heap w2) buf) ∧
  read_pump_step (RP_send pkt) t w2 =
    (if length (c_buf (incomingQueue t)) <? c_cap (incomingQueue t)
     then Returns RP_select
            (set_incomingQueue
               (mk_chan (c_buf (incomingQueue t) ++ [pkt])
                        (c_cap (incomingQueue t)) false) t)
            (emit (Sent Incoming pkt) w2)
     else Blocks) ∧
  ∀ s, reachable s →
       Forall produced (sent_on Incoming (trace (world s))) ∧
       Forall produced (c_buf (incomingQueue (dev s))).
Proof.
  intros Hctx Hdone Hopen Hread buf pkt.
  pose proof (Syscall_read_bound _ _ _ _ _ _ Hread) as Hn.
  destruct (make_bytes_fresh PACKET_SIZE w) as (Hfresh & Hzero & _).
  split_and!; try done.
  - by apply (read_pump_select_alloc t w c).
  - cbn [read_pump_step]. unfold read. cbn [s_len s_ptr buf].
    change (PACKET_SIZE =? 0) with false. cbn match. rewrite Hread.
    rewrite N.eqb_refl. cbn [negb log_Printf]. unfold reslice. subst buf.
    cbn [s_cap s_ptr]. by rewrite (proj2 (N.leb_le _ _) Hn).
  - cbn. apply N2Nat.id.
  - by apply read_pump_send_spec.
  - apply reachable_produced.
Qed.

Lemma read_pump_packet_has_read_length_witness :
  read_pump_step
    (RP_read (mk_slice 2 PACKET_SIZE PACKET_SIZE)) bound_device
    (reading_world [inr [x01; x02]]) =
  Returns (RP_send (mk_Packet (mk_slice 2 2 PACKET_SIZE) 2%N)) bound_device
          (after_read_world [inr [x01; x02]]) ∧
  slice_bytes (heap (after_read_world [inr [x01; x02]]))
              (mk_slice 2 2 PACKET_SIZE) = [x01; x02].
Proof.
  destruct (read_pump_packet_has_read_length bound_device
              (bound_world 0%N [inr [x01; x02]]) 0 2%N
              (after_read_world [inr [x01; x02]]))
    as (_ & _ & _ & _ & Hstep & _).
  - reflexivity.
  - reflexivity.
  - reflexivity.
  - vm_compute. reflexivity.
  - split; [exact Hstep|]. vm_compute. reflexivity.
Defined.

(** C1: an iteration of the read pump whose raw read fails logs the
    error and then goes on as after a successful read: it builds a
    packet of length 0 over the buffer it allocated and, when the
    Incoming Queue has room, puts that packet into the queue. *)
Theorem read_pump_enqueues_after_failed_read
  (t : NetDevice) (w : World) (c : nat) (r : uintptr) (e : Errno) (w2 : World) :
  ctx t = Some c →
  Done_ready w c = false →
  c_closed (incomingQueue t) = false →
  length (c_buf (incomingQueue t)) < c_cap (incomingQueue t) →
  Syscall_read (Fd (file t)) (length (heap w)) PACKET_SIZE
               (make_bytes PACKET_SIZE w).2 = Some (r, e, w2) →
  e ≠ 0%N →
  let buf := mk_slice (length (heap w)) PACKET_SIZE PACKET_SIZE in
  let pkt := empty_packet (length (heap w)) in
  let w3 := emit (Log ("read error: " +:+ ReadError (Errno_Error e))) w2 in
  read_pump_step RP_select t w =
    Returns (RP_read buf) t (make_bytes PACKET_SIZE w).2 ∧
  read_pump_step (RP_read buf) t (make_bytes PACKET_SIZE w).2 =
    Returns (RP_send pkt) t w3 ∧
  read_pump_step (RP_send pkt) t w3 =
    Returns RP_select
      (set_incomingQueue
         (mk_chan (c_buf (incomingQueue t) ++ [pkt])
                  (c_cap (incomingQueue t)) false) t)
      (emit (Sent Incoming pkt) w3).
Proof.
  intros Hctx Hdone Hopen Hroom Hread He buf pkt w3. split_and!.
  - by apply (read_pump_select_alloc t w c).
  - cbn [read_pump_step]. unfold read. subst buf. cbn [s_len s_ptr].
    change (PACKET_SIZE =? 0) with false. cbn match. rewrite Hread.
    apply N.eqb_neq in He. rewrite He. cbn [negb log_Printf].
    unfold reslice. cbn [s_cap s_ptr].
    by rewrite (proj2 (N.leb_le 0 _)) by lia.
  - rewrite (read_pump_send_spec _ _ _ Hopen).
    by rewrite (proj2 (Nat.ltb_lt _ _) Hroom).
Qed.

Lemma read_pump_enqueues_after_failed_read_witness :
  ∃ w3,
    read_pump_step (RP_read (mk_slice 2 PACKET_SIZE PACKET_SIZE)) bound_device
                   (reading_world [inl 5%positive]) =
      Returns (RP_send (empty_packet 2)) bound_device w3 ∧
    read_pump_step (RP_send (empty_packet 2)) bound_device w3 =
      Returns RP_select
        (set_incomingQueue (mk_chan [empty_packet 2] QUEUE_SIZE false) bound_device)
        (emit (Sent Incoming (empty_packet 2)) w3) ∧
    trace w3 = trace (bound_world 0%N []) ++
               [SysRead 3%N 2 PACKET_SIZE;
                Log "read error: read error: input/output error"].
Proof.
  destruct (read_pump_enqueues_after_failed_read bound_device
              (bound_world 0%N [inl 5%positive]) 0 invalid_fd 5%N
              (after_read_world [inl 5%positive]))
    as (_ & Hread & Hsend).
  - reflexivity.
  - reflexivity.
  - reflexivity.
  - vm_compute. lia.
  - vm_compute. reflexivity.
  - vm_compute. discriminate.
  - eexists. split; [exact Hread|]. split; [exact Hsend|].
    vm_compute. reflexivity.
Defined.

(** ** The write pump *)

Lemma Syscall_write_trace (fd : uintptr) (bytes : list byte) (w : World) :
  trace (Syscall_write fd bytes w).2 = trace w ++ [SysWrite fd bytes] ∧
  heap (Syscall_write fd bytes w).2 = heap w.
Proof. unfold Syscall_write. by repeat case_match. Qed.

Lemma can_recv_nonempty (q : chan) (p : Packet) (rest : list Packet) :
  c_buf q = p :: rest → can_recv q = true.
Proof.
  intros Hbuf. unfold can_recv. rewrite Hbuf.
  rewrite bool_decide_eq_false_2 by done. apply orb_true_r.
Qed.

(** For a packet whose length field is at least 1 and at most the
    capacity of its buffer, the write pump performs one raw write, of
    exactly that many bytes: the first [N] bytes of the array the
    packet's buffer starts at, unchanged. *)
Lemma write_pump_writes_declared_length
  (choice : nat) (t : NetDevice) (w : World) (c : nat)
  (p : Packet) (rest : list Packet) :
  ctx t = Some c →
  go_select choice (Done_ready w c) true = Case2 →
  c_buf (outgoingQueue t) = p :: rest →
  (1 <= N p)%N →
  (N p <= N.of_nat (s_cap (Buf p)))%N →
  s_cap (Buf p) ≤ length (backing (heap w) (Buf p)) →
  let bytes := take (N.to_nat (N p)) (backing (heap w) (Buf p)) in
  let t' := set_outgoingQueue
              (mk_chan rest (c_cap (outgoingQueue t))
                       (c_closed (outgoingQueue t))) t in
  let sw := Syscall_write (Fd (file t)) bytes (emit (Received Outgoing p) w) in
  let err := if (sw.1.2 =? 0)%N then None
             else Some (WriteError (Errno_Error sw.1.2)) in
  write_pump_step choice WP_select t w =
    Returns WP_select t' (log_Printf "write error: " err sw.2) ∧
  trace sw.2 = trace w ++ [Received Outgoing p; SysWrite (Fd (file t)) bytes] ∧
  N.of_nat (length bytes) = N p.
Proof.
  intros Hctx Hsel Hbuf Hlo Hhi Hvalid bytes t' sw err. split_and!.
  - cbn [write_pump_step]. rewrite Hctx, (can_recv_nonempty _ _ _ Hbuf), Hsel.
    unfold chan_recv. rewrite Hbuf. cbn match.
    unfold reslice. rewrite (proj2 (N.leb_le _ _) Hhi). cbn match.
    unfold write. cbn [s_len].
    rewrite (proj2 (Nat.eqb_neq (N.to_nat (N p)) 0)) by lia.
    fold t'. change (Fd (file t')) with (Fd (file t)).
    change (slice_bytes _ _) with bytes. fold sw. subst err.
    destruct sw as [[n e] w2]. cbn [fst snd]. by destruct (e =? 0)%N.
  - subst sw. rewrite (proj1 (Syscall_write_trace _ _ _)).
    cbn [trace emit]. by rewrite <- app_assoc.
  - subst bytes. rewrite length_take. lia.
Qed.

Example write_pump_writes_abc :
  ∃ t' w',
    write_pump_step 1 WP_select
      (set_outgoingQueue (mk_chan [abc_packet] QUEUE_SIZE false) bound_device)
      (bound_world 0%N []) = Returns WP_select t' w' ∧
    trace w' = trace (bound_world 0%N []) ++
               [Received Outgoing abc_packet; SysWrite 3%N ["a"; "b"; "c"]%byte].
Proof.
  destruct (write_pump_writes_declared_length 1
              (set_outgoingQueue (mk_chan [abc_packet] QUEUE_SIZE false) bound_device)
              (bound_world 0%N []) 0 abc_packet [])
    as (Hstep & Htrace & _).
  - reflexivity.
  - reflexivity.
  - reflexivity.
  - vm_compute. discriminate.
  - vm_compute. discriminate.
  - vm_compute. lia.
  - eexists _, _. split; [exact Hstep|]. vm_compute. reflexivity.
Qed.

(** C7: the write pump does not write every packet it takes out of the
    Outgoing Queue.  In a running program whose write pump is at its
    [select], a packet at the head of the queue whose length field is 0
    is taken out, and the pump then panics on the address of the first
    byte of the empty slice [pkt.Buf[:0]]: the device is handed nothing
    (the trace grows by the dequeue alone, with no write), and the
    program has crashed.  The echo program of test/network/main.go
    reaches such a state after one failed read. *)
Theorem write_pump_crashes_on_zero_length
  (s : System) (i choice c : nat) (p : Packet) (rest : list Packet) :
  crashed s = false →
  pumps s !! i = Some (WritePump WP_select) →
  ctx (dev s) = Some c →
  go_select choice (Done_ready (world s) c) true = Case2 →
  c_buf (outgoingQueue (dev s)) = p :: rest →
  N p = 0%N →
  ∃ s',
    sys_step (RunPump i choice) s = Some (Crash index_out_of_range, s') ∧
    crashed s' = true ∧
    c_buf (outgoingQueue (dev s')) = rest ∧
    trace (world s') = trace (world s) ++ [Received Outgoing p].
Proof.
  intros Hlive Hpump Hctx Hsel Hbuf HN. eexists.
  unfold sys_step. rewrite Hlive, Hpump. cbn [run_goroutine write_pump_step].
  rewrite Hctx, (can_recv_nonempty _ _ _ Hbuf), Hsel.
  unfold chan_recv. rewrite Hbuf. cbn match.
  unfold reslice. rewrite HN. rewrite (proj2 (N.leb_le 0 _)) by lia.
  cbn match. unfold write. cbn [s_len]. change (N.to_nat 0 =? 0) with true.
  cbn match. split; [reflexivity|]. by split_and!.
Qed.

Lemma write_pump_crashes_on_zero_length_witness :
  reachable failed_read_echo ∧
  c_buf (outgoingQueue (dev failed_read_echo)) = [empty_packet 2] ∧
  ∃ s',
    sys_step (RunPump 1 0) failed_read_echo =
      Some (Crash index_out_of_range, s') ∧
    crashed s' = true ∧
    trace (world s') =
      trace (world failed_read_echo) ++ [Received Outgoing (empty_packet 2)].
Proof.
  split; [|split; [reflexivity|]].
  - apply (run_reachable
             [CallBind; RunPump 0 0; RunPump 0 0; RunPump 0 0; CallRead;
              CallWrite 0 (empty_packet 2)] (booted 0%N [inl 5%positive])).
    + apply (reach_NewTun (boot 0%N 0%N 0%N [inl 5%positive])); reflexivity.
    + vm_compute. reflexivity.
  - destruct (write_pump_crashes_on_zero_length failed_read_echo 1 0 0
                (empty_packet 2) [])
      as (s' & Hstep & Hcrash & _ & Htrace).
    + reflexivity.
    + reflexivity.
    + reflexivity.
    + reflexivity.
    + reflexivity.
    + reflexivity.
    + exists s'. by split_and!.
Defined.

(** ** An engine that was never started *)

(** C10 as stated fails: on an engine that was constructed and never
    started, [Close] returns CloseError, without a panic, when the
    release of the handle fails. *)
Lemma Close_unstarted_may_return_error :
  ¬ (∀ (t : NetDevice) (w : World),
       ctx t = None → cancel t = None →
       ∃ msg t' w', Close t w = Panics msg t' w').
Proof.
  intros H.
  destruct (H fresh_device (world (booted 5%N [])) eq_refl eq_refl)
    as (msg & t' & w' & Heq).
  vm_compute in Heq. discriminate Heq.
Qed.

Lemma sys_step_keeps_context (a : action) (s : System) (o : observation)
  (s' : System) :
  a ≠ CallBind → sys_step a s = Some (o, s') →
  ctx (dev s') = ctx (dev s) ∧ cancel (dev s') = cancel (dev s).
Proof.
  intros Ha. unfold sys_step. destruct (crashed s); [done|].
  destruct a as [| |choice pkt| |i choice]; [done|..].
  - pose proof (Read_effect (dev s) (world s)) as HR.
    destruct (Read (dev s) (world s)) as [[pkt err] t w|msg t w|]; [| |done];
      intros [= <- <-]; apply HR.
  - pose proof (Write_effect choice pkt (dev s) (world s)) as HW.
    destruct (Write choice pkt (dev s) (world s)) as [err t w|msg t w|]; [| |done];
      intros [= <- <-]; apply HW.
  - pose proof (Close_effect (dev s) (world s)) as HC.
    destruct (Close (dev s) (world s)) as [err t w|msg t w|]; [| |done];
      intros [= <- <-]; apply HC.
  - destruct (pumps s !! i) as [[pc|pc]|]; [| |done]; cbn [run_goroutine].
    + pose proof (read_pump_step_effect pc (dev s) (world s)) as HR.
      destruct (read_pump_step pc (dev s) (world s)) as [pc' t w|msg t w|];
        [| |done]; intros [= <- <-]; apply HR.
    + pose proof (write_pump_step_effect choice pc (dev s) (world s)) as HW.
      destruct (write_pump_step choice pc (dev s) (world s)) as [pc' t w|msg t w|];
        [| |done]; intros [= <- <-]; apply HW.
Qed.

(** C10, amended: an engine as [NewTun] returns it has a nil context
    and a nil cancel function.  On such an engine every call of [Write]
    panics with a nil dereference, and a call of [Close] whose release
    of the handle succeeds panics with a nil dereference after closing
    the file.  [Bind] sets both fields, to the same fresh context, and
    no other call of the public API and no pump step changes them. *)
Theorem unstarted_engine_panics (w : World) (t : NetDevice) (w' : World) :
  NewTun w = (Some t, None, w') →
  ctx t = None ∧ cancel t = None ∧
  (∀ choice pkt w1, Write choice pkt t w1 = Panics nil_dereference t w1) ∧
  (∀ w1, k_close w1 = 0%N →
         ∃ w2, Close t w1 =
                 Panics nil_dereference
                        (set_file (mk_File (f_fd (file t)) true) t) w2 ∧
               trace w2 = trace w1 ++ [SysClose (f_fd (file t))]) ∧
  (∀ t1 w1, ctx (Bind t1 w1).1.1 = Some (length (ctxs w1)) ∧
            cancel (Bind t1 w1).1.1 = Some (length (ctxs w1)) ∧
            ctxs (Bind t1 w1).1.2 !! length (ctxs w1) = Some false) ∧
  (∀ a s o s', a ≠ CallBind → sys_step a s = Some (o, s') →
               ctx (dev s') = ctx (dev s) ∧ cancel (dev s') = cancel (dev s)).
Proof.
  intros [-> _]%NewTun_Some. split_and!; try done.
  - intros w1 Hclose. rewrite Close_spec by done. rewrite Hclose, N.eqb_refl.
    cbn [cancel]. eexists. split; [reflexivity|]. done.
  - intros t1 w1. cbn. split_and!; try done.
    by rewrite lookup_app_r, Nat.sub_diag.
  - apply sys_step_keeps_context.
Qed.

Lemma unstarted_engine_panics_witness :
  Write 0 abc_packet fresh_device (world (booted 0%N [])) =
    Panics nil_dereference fresh_device (world (booted 0%N [])) ∧
  ∃ w2, Close fresh_device (world (booted 0%N [])) =
          Panics nil_dereference
                 (set_file (mk_File 3%N true) fresh_device) w2.
Proof.
  destruct (unstarted_engine_panics (boot 0%N 0%N 0%N []) fresh_device
              (world (booted 0%N [])))
    as (_ & _ & HWrite & HClose & _).
  - reflexivity.
  - split; [apply HWrite|].
    destruct (HClose (world (booted 0%N []))) as (w2 & HC & _);
      [reflexivity|]. by exists w2.
Defined.

(** * Further properties of the package and of the echo program *)

(** ** What each operation does to the world *)

Ltac crush_op := repeat case_match; simplify_eq; cbn; try done.

Lemma Read_untouched (t : NetDevice) (w : World) :
  post (device_untouched t w) (Read t w).
Proof.
  unfold Read, chan_recv, device_untouched. crush_op.
  - split_and!; try done. exists []. by rewrite app_nil_r.
  - split_and!; try done. eexists [_]. split; [done|]. by repeat constructor.
Qed.

Lemma Write_untouched (choice : nat) (pkt : Packet) (t : NetDevice) (w : World) :
  post (device_untouched t w) (Write choice pkt t w).
Proof.
  unfold Write, chan_send, device_untouched. crush_op;
    split_and!; try done;
    try (exists []; by rewrite app_nil_r).
  eexists [_]. split; [done|]. by repeat constructor.
Qed.

Lemma read_world (buf : slice) (t : NetDevice) (w : World) :
  post (λ t' w', t' = t ∧ ctxs w' = ctxs w ∧ fds w' = fds w ∧
                 dev_tx w' = dev_tx w ∧
                 (heap w' = heap w ∨
                  ∃ f, heap w' = alter f (s_ptr buf) (heap w)))
       (read buf t w).
Proof.
  unfold read, Syscall_read. crush_op; split_and!; try done; eauto.
Qed.

Lemma write_world (buf : slice) (t : NetDevice) (w : World) :
  post (λ t' w', t' = t ∧ ctxs w' = ctxs w ∧ fds w' = fds w ∧
                 heap w' = heap w ∧ dev_rx w' = dev_rx w)
       (write buf t w).
Proof. unfold write, Syscall_write. crush_op. Qed.

Lemma log_Printf_world (prefix : string) (err : option error) (w : World) :
  heap (log_Printf prefix err w) = heap w ∧
  ctxs (log_Printf prefix err w) = ctxs w ∧
  fds (log_Printf prefix err w) = fds w ∧
  dev_rx (log_Printf prefix err w) = dev_rx w ∧
  dev_tx (log_Printf prefix err w) = dev_tx w.
Proof. by destruct err. Qed.

Lemma read_pump_step_world (pc : rp_pc) (t : NetDevice) (w : World) :
  post (λ t' w',
          file t' = file t ∧ ctxs w' = ctxs w ∧ fds w' = fds w ∧
          dev_tx w' = dev_tx w ∧
          match pc with
          | RP_select =>
              heap w' = heap w ∨ heap w' = heap w ++ [replicate PACKET_SIZE x00]
          | RP_read buf =>
              heap w' = heap w ∨ ∃ f, heap w' = alter f (s_ptr buf) (heap w)
          | _ => heap w' = heap w
          end)
       (read_pump_step pc t w).
Proof.
  destruct pc as [|buf|p|]; cbn [read_pump_step].
  - unfold make_bytes. crush_op; split_and!; eauto.
  - pose proof (read_world buf t w) as Hr.
    destruct (read buf t w) as [[n err] t1 w1|msg t1 w1|]; cbn in Hr |- *;
      [|by destruct Hr as (-> & ? & ? & ? & ?)|done].
    destruct Hr as (-> & Hc & Hf & Hx & Hh).
    destruct (log_Printf_world "read error: " err w1) as (Lh & Lc & Lf & _ & Lx).
    destruct (reslice buf n); cbn; rewrite Lh, Lc, Lf, Lx; by split_and!.
  - unfold chan_send. crush_op.
  - done.
Qed.

Lemma write_pump_step_world (choice : nat) (pc : wp_pc) (t : NetDevice)
  (w : World) :
  post (λ t' w',
          file t' = file t ∧ ctxs w' = ctxs w ∧ fds w' = fds w ∧
          heap w' = heap w ∧ dev_rx w' = dev_rx w)
       (write_pump_step choice pc t w).
Proof.
  destruct pc; cbn [write_pump_step]; [|done].
  destruct (ctx t) as [c|]; [|done]. destruct (go_select _ _ _); [done| |done].
  destruct (chan_recv (outgoingQueue t)) as [p ok q|]; [|done].
  set (t1 := set_outgoingQueue q t).
  set (w1 := if ok then emit (Received Outgoing p) w else w).
  assert (Hw1 : ctxs w1 = ctxs w ∧ fds w1 = fds w ∧ heap w1 = heap w ∧
                dev_rx w1 = dev_rx w) by (subst w1; by destruct ok).
  destruct Hw1 as (Hc & Hf & Hh & Hx).
  destruct (reslice (Buf p) (N p)) as [b|]; [|done].
  pose proof (write_world b t1 w1) as Hwr.
  destruct (write b t1 w1) as [[n err] t2 w2|msg t2 w2|]; cbn in Hwr |- *;
    [| |done]; destruct Hwr as (-> & Hc2 & Hf2 & Hh2 & Hx2).
  - destruct (log_Printf_world "write error: " err w2) as (Lh & Lc & Lf & Lx & _).
    rewrite Lh, Lc, Lf, Lx. split_and!; [done|congruence..].
  - split_and!; [done|congruence..].
Qed.

Lemma Close_world (t : NetDevice) (w : World) :
  post (λ t' w',
          heap w' = heap w ∧ dev_rx w' = dev_rx w ∧ dev_tx w' = dev_tx w ∧
          f_closed (file t') = true ∧
          (ctxs w' = ctxs w ∨
           ∃ c, cancel t = Some c ∧ ctxs w' = <[c := true]> (ctxs w)))
       (Close t w).
Proof.
  unfold Close, File_Close. destruct (f_closed (file t)) eqn:Hcl; cbn.
  - split_and!; try done. by left.
  - destruct (k_close w =? 0)%N; cbn; [destruct (cancel t) as [c|]; cbn|];
      split_and!; try done; try (by left). right. by exists c.
Qed.

Lemma sys_step_ctxs (a : action) (s : System) (o : observation) (s' : System) :
  sys_step a s = Some (o, s') →
  match a with
  | CallBind =>
      ctxs (world s') = ctxs (world s) ++ [false] ∧
      ctx (dev s') = Some (length (ctxs (world s))) ∧
      cancel (dev s') = Some (length (ctxs (world s)))
  | CallClose =>
      ctxs (world s') = ctxs (world s) ∨
      ∃ c, cancel (dev s) = Some c ∧
           ctxs (world s') = <[c := true]> (ctxs (world s))
  | _ => ctxs (world s') = ctxs (world s)
  end.
Proof.
  unfold sys_step. destruct (crashed s); [done|].
  destruct a as [| |choice pkt| |i choice].
  - cbn. by intros [= <- <-].
  - pose proof (Read_untouched (dev s) (world s)) as H.
    destruct (Read (dev s) (world s)) as [[pkt err] t w|msg t w|]; [| |done];
      intros [= <- <-]; apply H.
  - pose proof (Write_untouched choice pkt (dev s) (world s)) as H.
    destruct (Write choice pkt (dev s) (world s)) as [err t w|msg t w|]; [| |done];
      intros [= <- <-]; apply H.
  - pose proof (Close_world (dev s) (world s)) as H.
    destruct (Close (dev s) (world s)) as [err t w|msg t w|]; [| |done];
      intros [= <- <-]; apply H.
  - destruct (pumps s !! i) as [[pc|pc]|]; [| |done]; cbn [run_goroutine].
    + pose proof (read_pump_step_world pc (dev s) (world s)) as H.
      destruct (read_pump_step pc (dev s) (world s)) as [pc' t w|msg t w|];
        [| |done]; intros [= <- <-]; apply H.
    + pose proof (write_pump_step_world choice pc (dev s) (world s)) as H.
      destruct (write_pump_step choice pc (dev s) (world s)) as [pc' t w|msg t w|];
        [| |done]; intros [= <- <-]; apply H.
Qed.

(** ** The cancellation token *)

Lemma sys_step_token_stays_set (a : action) (s : System) (o : observation)
  (s' : System) (c : nat) :
  sys_step a s = Some (o, s') →
  ctxs (world s) !! c = Some true → ctxs (world s') !! c = Some true.
Proof.
  intros Hstep Hc. apply sys_step_ctxs in Hstep.
  destruct a; try (by rewrite Hstep).
  - destruct Hstep as (-> & _). by apply lookup_app_l_Some.
  - destruct Hstep as [->|(c' & _ & ->)]; [done|].
    destruct (decide (c' = c)) as [->|Hne].
    + apply list_lookup_insert_eq. by eapply lookup_lt_Some.
    + by rewrite list_lookup_insert_ne.
Qed.

(** X1: the token is one-way.  A context that has been cancelled stays
    cancelled through every later call of the public API, [Bind]
    included, and every pump step. *)
Theorem token_is_one_way (acts : list action) (s s' : System) (c : nat) :
  run acts s = Some s' →
  ctxs (world s) !! c = Some true →
  ctxs (world s') !! c = Some true.
Proof.
  revert s. induction acts as [|a acts IH]; intros s; cbn [run].
  - by intros [= <-].
  - destruct (sys_step a s) as [[o s1]|] eqn:Hstep; [|done].
    intros Hrun Hc. apply (IH s1 Hrun). by eapply sys_step_token_stays_set.
Qed.

Lemma token_is_one_way_witness :
  ctxs (world (default shutdown_state
                 (run [CallBind; CallWrite 0 abc_packet; RunPump 2 0]
                      shutdown_state))) !! 0 = Some true.
Proof.
  apply (token_is_one_way [CallBind; CallWrite 0 abc_packet; RunPump 2 0]
           shutdown_state).
  - vm_compute. reflexivity.
  - vm_compute. reflexivity.
Defined.

(** In every reachable state the device reads the context it cancels,
    and that context exists. *)
Lemma reachable_ctx_valid (s : System) :
  reachable s →
  ctx (dev s) = cancel (dev s) ∧
  ∀ c, ctx (dev s) = Some c → c < length (ctxs (world s)).
Proof.
  induction 1 as [w t w' Htr Hnew | s a o s' _ [IHeq IHlt] Hstep].
  - apply NewTun_Some in Hnew as [-> _]. by split.
  - pose proof (sys_step_ctxs a s o s' Hstep) as Hc.
    assert (Hkeep : a ≠ CallBind →
                    ctx (dev s') = ctx (dev s) ∧ cancel (dev s') = cancel (dev s))
      by (intros Hne; by eapply sys_step_keeps_context).
    destruct a as [| |choice pkt| |i choice].
    + destruct Hc as (Hc & -> & ->). split; [done|].
      intros c [= <-]. rewrite Hc, length_app. cbn. lia.
    + destruct Hkeep as [-> ->]; [done|]. by rewrite Hc.
    + destruct Hkeep as [-> ->]; [done|]. by rewrite Hc.
    + destruct Hkeep as [-> ->]; [done|]. split; [done|].
      intros c Hctx. specialize (IHlt c Hctx).
      destruct Hc as [->|(c' & _ & ->)]; [done|]. by rewrite length_insert.
    + destruct Hkeep as [-> ->]; [done|]. by rewrite Hc.
Qed.

Lemma bound_state_reachable : reachable bound_state.
Proof.
  apply (run_reachable [CallBind] (booted 0%N []));
    [apply booted_reachable | by vm_compute].
Qed.

Lemma set_file_same (t : NetDevice) : set_file (file t) t = t.
Proof. by destruct t. Qed.

(** ** Shutdown *)

(** What a [Close] that returns success leaves behind. *)
Lemma Close_success_spec
  (s : System) (c : nat) (t' : NetDevice) (w' : World) :
  reachable s →
  ctx (dev s) = Some c →
  Close (dev s) (world s) = Returns None t' w' →
  Done_ready w' c = true ∧
  ctx t' = Some c ∧
  f_closed (file t') = true ∧
  (f_fd (file (dev s)) ∉ fds w') ∧
  read_pump_step RP_select t' w' = Returns RP_return t' w' ∧
  (c_buf (outgoingQueue t') = [] →
   ∀ choice, write_pump_step choice WP_select t' w' = Returns WP_return t' w').
Proof.
  intros Hs Hctx HC.
  destruct (reachable_ctx_valid s Hs) as [Heq Hlt]. specialize (Hlt c Hctx).
  destruct (reachable_sys_inv s Hs) as (Hq & _ & _).
  destruct (Hq Outgoing) as (_ & Hopen & _). cbn [queue_of] in Hopen.
  destruct (f_closed (file (dev s))) eqn:Hcl.
  { unfold Close, File_Close in HC. by rewrite Hcl in HC. }
  rewrite (Close_spec _ _ Hcl) in HC. rewrite <- Heq, Hctx in HC.
  destruct (k_close (world s) =? 0)%N; [|done]. injection HC as <- <-.
  assert (Hdone : Done_ready
            (call_cancel c
               (set_fds (filter (λ d, d ≠ f_fd (file (dev s))) (fds (world s)))
                  (emit (SysClose (f_fd (file (dev s)))) (world s)))) c = true).
  { unfold Done_ready. cbn [ctxs call_cancel set_ctxs set_fds emit].
    by rewrite list_lookup_insert_eq. }
  split_and!; try done.
  - cbn [fds call_cancel set_ctxs set_fds emit].
    rewrite list_elem_of_filter. by intros [? _].
  - cbn [read_pump_step ctx set_file]. by rewrite Hctx, Hdone.
  - cbn [outgoingQueue set_file]. intros Hempty choice.
    cbn [write_pump_step ctx set_file outgoingQueue]. rewrite Hctx, Hdone.
    unfold can_recv. rewrite Hopen, Hempty. done.
Qed.

(** No step closes a file that is open again, and no step but the
    constructor adds a descriptor. *)
Lemma Close_fds (t : NetDevice) (w : World) :
  post (λ t' w', ∀ d, d ∈ fds w' → d ∈ fds w) (Close t w).
Proof.
  unfold Close, File_Close. crush_op; intros d Hd; try done;
    by apply list_elem_of_filter in Hd as [_ ?].
Qed.

Lemma sys_step_file_fds (a : action) (s : System) (o : observation)
  (s' : System) :
  sys_step a s = Some (o, s') →
  (f_closed (file (dev s)) = true → f_closed (file (dev s')) = true) ∧
  (∀ d, d ∈ fds (world s') → d ∈ fds (world s)).
Proof.
  unfold sys_step. destruct (crashed s); [done|].
  destruct a as [| |choice pkt| |i choice].
  - unfold Bind, context_WithCancel. by intros [= <- <-].
  - pose proof (Read_untouched (dev s) (world s)) as H.
    destruct (Read (dev s) (world s)) as [[pkt err] t w|msg t w|]; [| |done];
      intros [= <- <-]; destruct H as (Hf & _ & _ & Hd & _); cbn;
      by rewrite Hf, Hd.
  - pose proof (Write_untouched choice pkt (dev s) (world s)) as H.
    destruct (Write choice pkt (dev s) (world s)) as [err t w|msg t w|];
      [| |done];
      intros [= <- <-]; destruct H as (Hf & _ & _ & Hd & _); cbn;
      by rewrite Hf, Hd.
  - pose proof (Close_world (dev s) (world s)) as H.
    pose proof (Close_fds (dev s) (world s)) as H'.
    destruct (Close (dev s) (world s)) as [err t w|msg t w|]; [| |done];
      intros [= <- <-]; destruct H as (_ & _ & _ & Hcl & _); by cbn.
  - destruct (pumps s !! i) as [[pc|pc]|]; [| |done]; cbn [run_goroutine].
    + pose proof (read_pump_step_world pc (dev s) (world s)) as H.
      destruct (read_pump_step pc (dev s) (world s)) as [pc' t w|msg t w|];
        [| |done]; intros [= <- <-]; destruct H as (Hf & _ & Hd & _); cbn;
        by rewrite Hf, Hd.
    + pose proof (write_pump_step_world choice pc (dev s) (world s)) as H.
      destruct (write_pump_step choice pc (dev s) (world s)) as [pc' t w|msg t w|];
        [| |done]; intros [= <- <-]; destruct H as (Hf & _ & Hd & _); cbn;
        by rewrite Hf, Hd.
Qed.

(** What stays true after a shutdown for as long as [Bind] is not
    called again. *)
Lemma run_after_shutdown (acts : list action) (s1 s2 : System) (c : nat)
  (fd : uintptr) :
  Forall (λ a, a ≠ CallBind) acts →
  run acts s1 = Some s2 →
  ctx (dev s1) = Some c →
  ctxs (world s1) !! c = Some true →
  f_closed (file (dev s1)) = true →
  fd ∉ fds (world s1) →
  ctx (dev s2) = Some c ∧
  ctxs (world s2) !! c = Some true ∧
  f_closed (file (dev s2)) = true ∧
  fd ∉ fds (world s2).
Proof.
  intros Hacts. revert s1.
  induction Hacts as [|a acts Ha _ IH]; intros s1; cbn [run].
  - by intros [= <-].
  - destruct (sys_step a s1) as [[o s]|] eqn:Hstep; [|done].
    intros Hrun Hctx Htok Hcl Hfd.
    destruct (sys_step_keeps_context _ _ _ _ Ha Hstep) as [Hctx' _].
    destruct (sys_step_file_fds _ _ _ _ Hstep) as [Hcl' Hfd'].
    apply (IH s Hrun).
    + by rewrite Hctx'.
    + by eapply sys_step_token_stays_set.
    + by apply Hcl'.
    + intros Hin. by apply Hfd, Hfd'.
Qed.

(** X2: a [Close] that returns success on a started engine sets the
    token the device reads, closes the file and takes its descriptor out
    of the descriptor table.  From then on, for as long as [Bind] is not
    called again, this stays so whatever the program and the pumps do:
    in every later state the token is set, the file is closed, the
    descriptor is gone, a read pump entering its [select] returns, and
    so does a write pump that finds the Outgoing Queue empty. *)
Theorem Close_success_stops_pumps
  (s s1 s2 : System) (c : nat) (acts : list action) :
  reachable s →
  ctx (dev s) = Some c →
  sys_step CallClose s = Some (GotError None, s1) →
  Forall (λ a, a ≠ CallBind) acts →
  run acts s1 = Some s2 →
  Done_ready (world s2) c = true ∧
  ctx (dev s2) = Some c ∧
  f_closed (file (dev s2)) = true ∧
  (f_fd (file (dev s)) ∉ fds (world s2)) ∧
  read_pump_step RP_select (dev s2) (world s2) =
    Returns RP_return (dev s2) (world s2) ∧
  (c_buf (outgoingQueue (dev s2)) = [] →
   ∀ choice, write_pump_step choice WP_select (dev s2) (world s2) =
             Returns WP_return (dev s2) (world s2)).
Proof.
  intros Hs Hctx HC Hacts Hrun.
  assert (Hs2 : reachable s2).
  { eapply run_reachable; [|exact Hrun]. by eapply reach_step. }
  destruct (reachable_sys_inv s2 Hs2) as (Hq & _ & _).
  destruct (Hq Outgoing) as (_ & Hopen & _). cbn [queue_of] in Hopen.
  assert (H1 : ctx (dev s1) = Some c ∧ ctxs (world s1) !! c = Some true ∧
               f_closed (file (dev s1)) = true ∧
               f_fd (file (dev s)) ∉ fds (world s1)).
  { revert HC. unfold sys_step. destruct (crashed s); [done|].
    destruct (Close (dev s) (world s)) as [err t w|msg t w|] eqn:HClose;
      [|done|done].
    intros [= -> <-]. cbn [dev world].
    destruct (Close_success_spec s c t w Hs Hctx HClose)
      as (Hdone & Hctx1 & Hcl & Hfd & _).
    split_and!; try done. unfold Done_ready in Hdone.
    by destruct (ctxs w !! c) as [[]|]. }
  destruct H1 as (Hctx1 & Htok1 & Hcl1 & Hfd1).
  destruct (run_after_shutdown acts s1 s2 c (f_fd (file (dev s)))
              Hacts Hrun Hctx1 Htok1 Hcl1 Hfd1) as (Hctx2 & Htok2 & Hcl2 & Hfd2).
  assert (Hdone : Done_ready (world s2) c = true)
    by (unfold Done_ready; by rewrite Htok2).
  split_and!; try done.
  - cbn [read_pump_step]. by rewrite Hctx2, Hdone.
  - intros Hempty choice. cbn [write_pump_step]. rewrite Hctx2, Hdone.
    unfold can_recv. by rewrite Hopen, Hempty.
Qed.

Lemma Close_success_stops_pumps_witness :
  ∃ s2,
    run [CallClose; CallWrite 0 abc_packet; RunPump 1 1; RunPump 1 0;
         RunPump 0 0] bound_state = Some s2 ∧
    pumps s2 = [ReadPump RP_return; WritePump WP_return] ∧
    Done_ready (world s2) 0 = true ∧
    read_pump_step RP_select (dev s2) (world s2) =
      Returns RP_return (dev s2) (world s2).
Proof.
  set (s1 := mk_System closed_device closed_world
               [ReadPump RP_select; WritePump WP_select] false).
  set (acts := [CallWrite 0 abc_packet; RunPump 1 1; RunPump 1 0; RunPump 0 0]).
  exists (default s1 (run acts s1)).
  destruct (Close_success_stops_pumps bound_state s1 (default s1 (run acts s1))
              0 acts)
    as (Hdone & _ & _ & _ & Hpump & _).
  - apply (run_reachable [CallBind] (booted 0%N [])).
    + apply (reach_NewTun (boot 0%N 0%N 0%N [])); reflexivity.
    + vm_compute. reflexivity.
  - reflexivity.
  - reflexivity.
  - repeat constructor; discriminate.
  - vm_compute. reflexivity.
  - split_and!; [vm_compute; reflexivity|vm_compute; reflexivity|done|done].
Defined.

(** X3: [Close] is not idempotent.  After a call of [Close], whatever
    it returned (and also if it panicked on a nil cancel function), a
    further call releases nothing, makes no system call and returns
    CloseError for a file already closed. *)
Theorem Close_again_fails (t : NetDevice) (w : World) :
  post (λ t1 w1,
          Close t1 w1 =
            Returns (Some (CloseError "close /dev/net/tun: file already closed"))
                    t1 w1)
       (Close t w).
Proof.
  pose proof (Close_world t w) as H.
  destruct (Close t w) as [e t1 w1|msg t1 w1|]; cbn in H |- *; [| |done];
    destruct H as (_ & _ & _ & Hcl & _);
    unfold Close, File_Close; rewrite Hcl; by rewrite set_file_same.
Qed.

(** X4: [Bind] on an engine that was shut down re-arms it.  It installs
    a new, unset token while the file stays closed, so [Write] with
    room in the Outgoing Queue accepts packets again instead of failing
    with DeviceClosedError. *)
Theorem Bind_after_Close_accepts_writes
  (t : NetDevice) (w : World) (t1 : NetDevice) (w1 : World)
  (choice : nat) (pkt : Packet) :
  Close t w = Returns None t1 w1 →
  c_closed (outgoingQueue t1) = false →
  length (c_buf (outgoingQueue t1)) < c_cap (outgoingQueue t1) →
  let t2 := (Bind t1 w1).1.1 in
  let w2 := (Bind t1 w1).1.2 in
  f_closed (file t2) = true ∧
  ctx t2 = Some (length (ctxs w1)) ∧
  Done_ready w2 (length (ctxs w1)) = false ∧
  Write choice pkt t2 w2 =
    Returns None
      (set_outgoingQueue
         (mk_chan (c_buf (outgoingQueue t1) ++ [pkt])
                  (c_cap (outgoingQueue t1)) false) t2)
      (emit (Sent Outgoing pkt) w2).
Proof.
  intros HC Hopen Hroom t2 w2.
  pose proof (Close_world t w) as H. rewrite HC in H. cbn in H.
  destruct H as (_ & _ & _ & Hcl & _).
  assert (Hdone : Done_ready w2 (length (ctxs w1)) = false).
  { unfold Done_ready. subst w2. cbn. by rewrite lookup_app_r, Nat.sub_diag. }
  split_and!; try done.
  unfold Write. subst t2. cbn [Bind context_WithCancel fst snd ctx outgoingQueue].
  fold w2. rewrite Hdone. unfold can_send, chan_send. rewrite Hopen.
  apply Nat.ltb_lt in Hroom. rewrite Hroom. done.
Qed.

Lemma Bind_after_Close_accepts_writes_witness :
  ∃ t3 w3,
    Write 0 abc_packet (Bind closed_device closed_world).1.1
          (Bind closed_device closed_world).1.2 = Returns None t3 w3 ∧
    c_buf (outgoingQueue t3) = [abc_packet] ∧
    f_closed (file t3) = true.
Proof.
  destruct (Bind_after_Close_accepts_writes bound_device (bound_world 0%N [])
              closed_device closed_world 0 abc_packet)
    as (_ & _ & _ & HW).
  - reflexivity.
  - reflexivity.
  - vm_compute. lia.
  - eexists _, _. split; [exact HW|]. by split.
Defined.

(** ** Calls that only work on the queues *)

(** X6: the public [Read] and [Write] never touch the device.  Whatever
    they return, they make no system call and leave the file, the
    descriptor table, the byte arrays, the contexts and the device
    scripts as they were; all they add to the trace is queue history. *)
Theorem Read_Write_never_touch_device
  (choice : nat) (pkt : Packet) (t : NetDevice) (w : World) :
  post (device_untouched t w) (Read t w) ∧
  post (device_untouched t w) (Write choice pkt t w).
Proof. split; [apply Read_untouched | apply Write_untouched]. Qed.

(** ** Raw reads and memory *)

(** X5: the raw [read] returns at most [len(buf)] and writes only into
    the array of [buf].  Every other array is left as it was, the array
    of [buf] keeps its length, and its bytes from position [n] on are
    unchanged; when the read fails, [n] is 0 and no array changes. *)
Theorem read_writes_only_its_buffer
  (buf : slice) (t : NetDevice) (w : World)
  (n : uintptr) (err : option error) (t' : NetDevice) (w' : World) :
  read buf t w = Returns (n, err) t' w' →
  s_len buf ≤ length (backing (heap w) buf) →
  t' = t ∧
  (n <= N.of_nat (s_len buf))%N ∧
  length (heap w') = length (heap w) ∧
  (∀ i, i ≠ s_ptr buf → heap w' !! i = heap w !! i) ∧
  length (backing (heap w') buf) = length (backing (heap w) buf) ∧
  drop (N.to_nat n) (backing (heap w') buf) =
    drop (N.to_nat n) (backing (heap w) buf) ∧
  (is_Some err → n = 0%N ∧ heap w' = heap w).
Proof.
  unfold read. destruct (s_len buf =? 0) eqn:Hz; [done|].
  apply Nat.eqb_neq in Hz. unfold Syscall_read.
  destruct (bool_decide _).
  - destruct (dev_rx w) as [|[e|data] rx]; [done| |].
    + replace (N.pos e =? 0)%N with false by done. cbn [negb].
      intros [= <- <- <- <-] _. split_and!; try done. lia.
    + rewrite N.eqb_refl. cbn [negb]. intros [= <- <- <- <-] Hvalid.
      set (m := s_len buf `min` length data).
      cbn [heap set_heap set_dev_rx emit]. unfold backing in *.
      rewrite list_lookup_alter_eq.
      destruct (heap w !! s_ptr buf) as [arr|] eqn:Harr; cbn in Hvalid |- *;
        [|lia].
      assert (Hm : length (take m data) = m) by (rewrite length_take; lia).
      split_and!.
      * done.
      * lia.
      * apply length_alter.
      * intros i Hi. by apply list_lookup_alter_ne.
      * rewrite length_app, Hm, length_drop. lia.
      * rewrite Nat2N.id. by rewrite drop_app_length'.
      * by intros [? [=]].
  - replace (EBADF =? 0)%N with false by done. cbn [negb].
    intros [= <- <- <- <-] _. split_and!; try done. lia.
Qed.

Lemma read_writes_only_its_buffer_witness :
  heap (after_read_world [inr [x01; x02]]) !! 1 = Some ["a"; "b"; "c"; x00]%byte ∧
  length (backing (heap (after_read_world [inr [x01; x02]]))
                  (mk_slice 2 PACKET_SIZE PACKET_SIZE)) = PACKET_SIZE.
Proof.
  destruct (read_writes_only_its_buffer
              (mk_slice 2 PACKET_SIZE PACKET_SIZE) bound_device
              (reading_world [inr [x01; x02]]) 2%N None bound_device
              (after_read_world [inr [x01; x02]]))
    as (_ & _ & _ & Hother & Hlen & _).
  - vm_compute. reflexivity.
  - apply Nat.leb_le. vm_compute. reflexivity.
  - split; [rewrite Hother by (cbn; lia); reflexivity|].
    rewrite Hlen. vm_compute. reflexivity.
Defined.

(** ** Edge behaviour of the pumps *)

Lemma write_pump_dequeues (choice : nat) (t : NetDevice) (w : World) (c : nat)
  (p : Packet) (rest : list Packet) :
  ctx t = Some c →
  go_select choice (Done_ready w c) true = Case2 →
  c_buf (outgoingQueue t) = p :: rest →
  let t' := set_outgoingQueue
              (mk_chan rest (c_cap (outgoingQueue t))
                       (c_closed (outgoingQueue t))) t in
  let w' := emit (Received Outgoing p) w in
  write_pump_step choice WP_select t w =
    match reslice (Buf p) (N p) with
    | None => Panics (slice_out_of_range (N p) (s_cap (Buf p))) t' w'
    | Some b =>
        match write b t' w' with
        | Returns (_, err) t2 w2 =>
            Returns WP_select t2 (log_Printf "write error: " err w2)
        | Panics msg t2 w2 => Panics msg t2 w2
        | Blocks => Blocks
        end
    end.
Proof.
  intros Hctx Hsel Hbuf. cbn [write_pump_step].
  rewrite Hctx, (can_recv_nonempty _ _ _ Hbuf), Hsel.
  unfold chan_recv. by rewrite Hbuf.
Qed.

(** X7: a write pump that takes a packet out of the Outgoing Queue
    whose length field is 0, or exceeds the capacity of its buffer,
    panics.  The packet is gone from the queue and no write is made. *)
Theorem write_pump_panics_on_bad_length
  (choice : nat) (t : NetDevice) (w : World) (c : nat)
  (p : Packet) (rest : list Packet) :
  ctx t = Some c →
  go_select choice (Done_ready w c) true = Case2 →
  c_buf (outgoingQueue t) = p :: rest →
  N p = 0%N ∨ (N.of_nat (s_cap (Buf p)) < N p)%N →
  ∃ msg t',
    write_pump_step choice WP_select t w =
      Panics msg t' (emit (Received Outgoing p) w) ∧
    c_buf (outgoingQueue t') = rest.
Proof.
  intros Hctx Hsel Hbuf Hbad.
  rewrite (write_pump_dequeues choice t w c p rest Hctx Hsel Hbuf).
  unfold reslice. destruct Hbad as [Hzero|Hbig].
  - rewrite Hzero. rewrite (proj2 (N.leb_le 0 _)) by lia.
    unfold write. cbn [s_len]. change (N.to_nat 0 =? 0) with true.
    by eexists _, _.
  - rewrite (proj2 (N.leb_gt _ _) Hbig). by eexists _, _.
Qed.

Lemma write_pump_panics_on_bad_length_witness :
  ∃ msg t',
    write_pump_step 1 WP_select
      (set_outgoingQueue (mk_chan [empty_packet 2; abc_packet] QUEUE_SIZE false)
                         bound_device)
      (bound_world 0%N []) =
      Panics msg t' (emit (Received Outgoing (empty_packet 2)) (bound_world 0%N [])) ∧
    c_buf (outgoingQueue t') = [abc_packet].
Proof.
  apply (write_pump_panics_on_bad_length 1
           (set_outgoingQueue
              (mk_chan [empty_packet 2; abc_packet] QUEUE_SIZE false) bound_device)
           (bound_world 0%N []) 0 (empty_packet 2) [abc_packet]).
  - reflexivity.
  - reflexivity.
  - reflexivity.
  - left. reflexivity.
Defined.

(** X8: backpressure loses nothing.  While the Incoming Queue is full
    the read pump waits at its send with the packet in hand and changes
    nothing; once a [Read] has taken the oldest packet, the send goes
    through and the packet is at the tail of the queue, behind all the
    packets that were there. *)
Theorem read_pump_waits_for_room
  (pkt p0 : Packet) (rest : list Packet) (t : NetDevice) (w : World) :
  c_closed (incomingQueue t) = false →
  c_buf (incomingQueue t) = p0 :: rest →
  length (c_buf (incomingQueue t)) = c_cap (incomingQueue t) →
  read_pump_step (RP_send pkt) t w = Blocks ∧
  ∃ t1 w1 t2 w2,
    Read t w = Returns (p0, None) t1 w1 ∧
    read_pump_step (RP_send pkt) t1 w1 = Returns RP_select t2 w2 ∧
    c_buf (incomingQueue t2) = rest ++ [pkt] ∧
    c_cap (incomingQueue t2) = c_cap (incomingQueue t).
Proof.
  intros Hopen Hbuf Hfull. split.
  - rewrite (read_pump_send_spec _ _ _ Hopen), Hfull.
    by rewrite Nat.ltb_irrefl.
  - rewrite Read_spec, Hbuf, Hopen. eexists _, _, _, _. split; [done|].
    rewrite read_pump_send_spec by done.
    cbn [incomingQueue set_incomingQueue c_buf c_cap].
    rewrite Hbuf in Hfull. cbn in Hfull.
    rewrite (proj2 (Nat.ltb_lt _ _)) by lia. done.
Qed.

Lemma read_pump_waits_for_room_witness :
  read_pump_step (RP_send (empty_packet 2))
    (set_incomingQueue (mk_chan (replicate 10 abc_packet) QUEUE_SIZE false)
                       bound_device)
    (bound_world 0%N []) = Blocks.
Proof.
  apply (read_pump_waits_for_room (empty_packet 2) abc_packet
           (replicate 9 abc_packet)
           (set_incomingQueue (mk_chan (replicate 10 abc_packet) QUEUE_SIZE false)
                              bound_device)
           (bound_world 0%N [])).
  - reflexivity.
  - reflexivity.
  - reflexivity.
Defined.

(** X9: packets still in the Outgoing Queue when the file is closed are
    lost.  A write pump that takes such a packet out hands [write] the
    invalid descriptor of the closed file; the call fails with EBADF,
    the pump logs the error and goes back to its [select] without the
    packet. *)
Theorem write_pump_after_close_drops_packet
  (choice : nat) (t : NetDevice) (w : World) (c : nat)
  (p : Packet) (rest : list Packet) :
  ctx t = Some c →
  go_select choice (Done_ready w c) true = Case2 →
  c_buf (outgoingQueue t) = p :: rest →
  (1 <= N p)%N →
  (N p <= N.of_nat (s_cap (Buf p)))%N →
  f_closed (file t) = true →
  invalid_fd ∉ fds w →
  ∃ t' w',
    write_pump_step choice WP_select t w = Returns WP_select t' w' ∧
    c_buf (outgoingQueue t') = rest ∧
    dev_tx w' = dev_tx w ∧
    trace w' = trace w ++
      [Received Outgoing p;
       SysWrite invalid_fd (take (N.to_nat (N p)) (backing (heap w) (Buf p)));
       Log "write error: write error: bad file descriptor"].
Proof.
  intros Hctx Hsel Hbuf Hlo Hhi Hclosed Hfd.
  rewrite (write_pump_dequeues choice t w c p rest Hctx Hsel Hbuf).
  unfold reslice. rewrite (proj2 (N.leb_le _ _) Hhi).
  unfold write, Syscall_write, Fd. cbn [s_len file set_outgoingQueue].
  rewrite (proj2 (Nat.eqb_neq (N.to_nat (N p)) 0)) by lia.
  rewrite Hclosed. cbn [fds emit].
  rewrite bool_decide_eq_false_2 by done.
  replace (EBADF =? 0)%N with false by done. cbn [negb log_Printf].
  eexists _, _. split; [reflexivity|]. split_and!; try done.
  cbn [trace emit]. by rewrite <- !app_assoc.
Qed.

Lemma write_pump_after_close_drops_packet_witness :
  ∃ t' w',
    write_pump_step 1 WP_select
      (set_outgoingQueue (mk_chan [abc_packet] QUEUE_SIZE false) closed_device)
      closed_world = Returns WP_select t' w' ∧
    c_buf (outgoingQueue t') = [] ∧
    dev_tx w' = dev_tx closed_world ∧
    trace w' = trace closed_world ++
      [Received Outgoing abc_packet;
       SysWrite invalid_fd ["a"; "b"; "c"]%byte;
       Log "write error: write error: bad file descriptor"].
Proof.
  apply (write_pump_after_close_drops_packet 1
           (set_outgoingQueue (mk_chan [abc_packet] QUEUE_SIZE false) closed_device)
           closed_world 0 abc_packet []).
  - reflexivity.
  - reflexivity.
  - reflexivity.
  - vm_compute. discriminate.
  - vm_compute. discriminate.
  - reflexivity.
  - vm_compute. apply not_elem_of_nil.
Defined.

(** ** Buffers are never shared between packets *)

Lemma owned_insert (ps : list goroutine) (i : nat) (g g' : goroutine) :
  ps !! i = Some g →
  concat (owned <$> <[i := g']> ps) =
    concat (owned <$> take i ps) ++ owned g' ++ concat (owned <$> drop (S i) ps) ∧
  concat (owned <$> ps) =
    concat (owned <$> take i ps) ++ owned g ++ concat (owned <$> drop (S i) ps).
Proof.
  intros Hi. split.
  - rewrite insert_take_drop by (by eapply lookup_lt_Some).
    by rewrite fmap_app, concat_app, fmap_cons.
  - rewrite <- (take_drop_middle ps i g Hi) at 1.
    by rewrite fmap_app, concat_app, fmap_cons.
Qed.

Lemma owned_insert_same (ps : list goroutine) (i : nat) (g g' : goroutine) :
  ps !! i = Some g → owned g' = owned g →
  concat (owned <$> <[i := g']> ps) = concat (owned <$> ps).
Proof.
  intros Hi Ho. destruct (owned_insert ps i g g' Hi) as [-> ->]. by rewrite Ho.
Qed.

(** What one step of the program does to the byte arrays, to the
    arrays the read pumps hold, and to the history of the Incoming
    Queue: nothing; or a read pump allocates a new array; or a read pump
    has the array it holds filled by the device; or a read pump hands
    its packet over to the queue. *)
Lemma sys_step_arrays (a : action) (s : System) (o : observation) (s' : System) :
  sys_step a s = Some (o, s') →
  (heap (world s') = heap (world s) ∧
   sent_on Incoming (trace (world s')) = sent_on Incoming (trace (world s)) ∧
   concat (owned <$> pumps s') = concat (owned <$> pumps s))
  ∨ (∃ i g,
       pumps s !! i = Some g ∧ owned g = [] ∧
       pumps s' =
         <[i := ReadPump (RP_read (mk_slice (length (heap (world s)))
                                            PACKET_SIZE PACKET_SIZE))]> (pumps s) ∧
       heap (world s') = heap (world s) ++ [replicate PACKET_SIZE x00] ∧
       sent_on Incoming (trace (world s')) = sent_on Incoming (trace (world s)))
  ∨ (∃ i buf f,
       pumps s !! i = Some (ReadPump (RP_read buf)) ∧
       heap (world s') = alter f (s_ptr buf) (heap (world s)) ∧
       sent_on Incoming (trace (world s')) = sent_on Incoming (trace (world s)) ∧
       concat (owned <$> pumps s') = concat (owned <$> pumps s))
  ∨ (∃ i pkt,
       pumps s !! i = Some (ReadPump (RP_send pkt)) ∧
       pumps s' = <[i := ReadPump RP_select]> (pumps s) ∧
       heap (world s') = heap (world s) ∧
       sent_on Incoming (trace (world s')) =
         sent_on Incoming (trace (world s)) ++ [pkt]).
Proof.
  unfold sys_step. destruct (crashed s); [done|].
  destruct a as [| |choice pkt| |i choice].
  - intros [= <- <-]. left. cbn. split_and!; try done.
    by rewrite fmap_app, concat_app, app_nil_r.
  - pose proof (Read_untouched (dev s) (world s)) as HU.
    pose proof (Read_effect (dev s) (world s)) as HE.
    destruct (Read (dev s) (world s)) as [[pkt err] t w|msg t w|]; [| |done];
      intros [= <- <-]; left; cbn in *;
      destruct HU as (_ & -> & _), HE as [_ ->]; done.
  - pose proof (Write_untouched choice pkt (dev s) (world s)) as HU.
    pose proof (Write_effect choice pkt (dev s) (world s)) as HE.
    destruct (Write choice pkt (dev s) (world s)) as [err t w|msg t w|]; [| |done];
      intros [= <- <-]; left; cbn in *;
      destruct HU as (_ & -> & _), HE as [_ ->]; done.
  - pose proof (Close_world (dev s) (world s)) as HU.
    pose proof (Close_effect (dev s) (world s)) as HE.
    destruct (Close (dev s) (world s)) as [err t w|msg t w|]; [| |done];
      intros [= <- <-]; left; cbn in *;
      destruct HU as (-> & _), HE as [_ ->]; done.
  - destruct (pumps s !! i) as [[pc|pc]|] eqn:Hi; [| |done]; cbn [run_goroutine].
    + pose proof (read_pump_step_world pc (dev s) (world s)) as HU.
      pose proof (read_pump_step_effect pc (dev s) (world s)) as HE.
      destruct pc as [|buf|p|].
      * cbn [read_pump_step] in *. destruct (ctx (dev s)) as [c|].
        -- destruct (Done_ready (world s) c).
           ++ intros [= <- <-]. left. cbn. split_and!; try done.
              by apply (owned_insert_same _ _ (ReadPump RP_select)).
           ++ intros [= <- <-]. right. left. cbn.
              exists i, (ReadPump RP_select). by split_and!.
        -- intros [= <- <-]. by left.
      * destruct (read_pump_step (RP_read buf) (dev s) (world s))
          as [pc' t w|msg t w|] eqn:Hstep; [| |done]; intros [= <- <-];
          cbn in HU, HE; destruct HU as (_ & _ & _ & _ & Hheap), HE as [_ Hsent];
          rewrite app_nil_r in Hsent; cbn [world pumps].
        -- assert (Hown : owned (ReadPump pc') = owned (ReadPump (RP_read buf))).
           { cbn [read_pump_step] in Hstep.
             destruct (read buf (dev s) (world s)) as [[n err] t1 w1|?|]; [|done|done].
             destruct (reslice buf n) as [b|] eqn:Hre; [|done].
             apply reslice_Some in Hre as [_ ->]. by injection Hstep as <- _ _. }
           pose proof (owned_insert_same _ _ _ _ Hi Hown) as Hcat.
           destruct Hheap as [Hheap|(f & Hheap)].
           ++ left. by split_and!.
           ++ right. right. left. exists i, buf, f. by split_and!.
        -- destruct Hheap as [Hheap|(f & Hheap)].
           ++ left. by split_and!.
           ++ right. right. left. exists i, buf, f. by split_and!.
      * cbn [read_pump_step] in *.
        destruct (chan_send (incomingQueue (dev s)) p) as [q| |]; [| |done];
          intros [= <- <-]; cbn in HU, HE;
          destruct HU as (_ & _ & _ & _ & Hheap), HE as [_ Hsent];
          cbn [world pumps].
        -- right. right. right. exists i, p. by split_and!.
        -- left. rewrite app_nil_r in Hsent. by split_and!.
      * done.
    + pose proof (write_pump_step_world choice pc (dev s) (world s)) as HU.
      pose proof (write_pump_step_effect choice pc (dev s) (world s)) as HE.
      destruct (write_pump_step choice pc (dev s) (world s)) as [pc' t w|msg t w|];
        [| |done]; intros [= <- <-]; left; cbn in *;
        destruct HU as (_ & _ & _ & -> & _), HE as [_ ->]; split_and!; try done.
      by apply (owned_insert_same _ _ (WritePump pc)).
Qed.

Lemma sys_step_heap_inv (a : action) (s : System) (o : observation) (s' : System) :
  heap_inv s → sys_step a s = Some (o, s') → heap_inv s'.
Proof.
  intros [Hnd Hlt] Hstep. unfold heap_inv, pump_arrays in *.
  destruct (sys_step_arrays a s o s' Hstep)
    as [(-> & -> & ->) | [(i & g & Hi & Hg & -> & -> & ->)
       | [(i & buf & f & Hi & -> & -> & ->) | (i & p & Hi & -> & -> & ->)]]].
  - done.
  - destruct (owned_insert (pumps s) i g
                (ReadPump (RP_read (mk_slice (length (heap (world s)))
                                             PACKET_SIZE PACKET_SIZE))) Hi)
      as [-> Hold].
    rewrite Hold, Hg in Hnd, Hlt. cbn [owned s_ptr].
    set (A := concat (owned <$> take i (pumps s))) in *.
    set (B := concat (owned <$> drop (S i) (pumps s))) in *.
    set (S0 := (λ p, s_ptr (Buf p)) <$> sent_on Incoming (trace (world s))) in *.
    assert (Hperm : (A ++ [length (heap (world s))] ++ B) ++ S0 ≡ₚ
                    length (heap (world s)) :: (A ++ [] ++ B) ++ S0).
    { cbn. rewrite <- !app_assoc. cbn. symmetry. apply Permutation_middle. }
    rewrite Hperm, length_app. cbn [length]. split.
    + apply NoDup_cons. split; [|done]. intros Hin.
      rewrite Forall_forall in Hlt. specialize (Hlt _ Hin). lia.
    + constructor; [lia|]. eapply Forall_impl; [exact Hlt|]. cbn. lia.
  - by rewrite length_alter.
  - destruct (owned_insert (pumps s) i (ReadPump (RP_send p))
                (ReadPump RP_select) Hi) as [-> Hold].
    rewrite Hold in Hnd, Hlt. cbn [owned] in *. rewrite fmap_app. cbn [fmap list_fmap].
    set (A := concat (owned <$> take i (pumps s))) in *.
    set (B := concat (owned <$> drop (S i) (pumps s))) in *.
    set (S0 := (λ p, s_ptr (Buf p)) <$> sent_on Incoming (trace (world s))) in *.
    assert (Hperm : (A ++ [] ++ B) ++ S0 ++ [s_ptr (Buf p)] ≡ₚ
                    (A ++ [s_ptr (Buf p)] ++ B) ++ S0).
    { cbn. rewrite <- !app_assoc. cbn. apply Permutation_app_head.
      rewrite app_assoc. by rewrite <- Permutation_cons_append. }
    by rewrite Hperm.
Qed.

Lemma reachable_heap_inv (s : System) : reachable s → heap_inv s.
Proof.
  induction 1 as [w t w' Htr Hnew | s a o s' _ IH Hstep].
  - apply NewTun_Some in Hnew as [_ Htr']. rewrite Htr in Htr'.
    unfold heap_inv, pump_arrays. cbn [pumps world]. rewrite Htr'. cbn.
    split; constructor.
  - by eapply sys_step_heap_inv.
Qed.

Lemma sys_step_sent_grows (a : action) (s : System) (o : observation)
  (s' : System) (pkt : Packet) :
  sys_step a s = Some (o, s') →
  pkt ∈ sent_on Incoming (trace (world s)) →
  pkt ∈ sent_on Incoming (trace (world s')).
Proof.
  intros Hstep Hin.
  destruct (sys_step_arrays a s o s' Hstep)
    as [(_ & -> & _) | [(i & g & _ & _ & _ & _ & ->)
       | [(i & buf & f & _ & _ & -> & _) | (i & p & _ & _ & _ & ->)]]];
    try done.
  apply elem_of_app. by left.
Qed.

Lemma sys_step_keeps_sent_bytes (a : action) (s : System) (o : observation)
  (s' : System) (pkt : Packet) :
  heap_inv s →
  sys_step a s = Some (o, s') →
  pkt ∈ sent_on Incoming (trace (world s)) →
  backing (heap (world s')) (Buf pkt) = backing (heap (world s)) (Buf pkt).
Proof.
  intros [Hnd Hlt] Hstep Hin. unfold pump_arrays in *.
  assert (Hptr : s_ptr (Buf pkt) ∈
            (λ p, s_ptr (Buf p)) <$> sent_on Incoming (trace (world s)))
    by (apply list_elem_of_fmap; by exists pkt).
  unfold backing.
  destruct (sys_step_arrays a s o s' Hstep)
    as [(-> & _) | [(i & g & _ & _ & _ & -> & _)
       | [(i & buf & f & Hi & -> & _) | (i & p & _ & _ & -> & _)]]];
    try done.
  - rewrite lookup_app_l; [done|].
    rewrite Forall_forall in Hlt. apply Hlt, elem_of_app. by right.
  - rewrite list_lookup_alter_ne; [done|]. intros Heq.
    apply NoDup_app in Hnd as (_ & Hdisj & _). apply (Hdisj (s_ptr buf)).
    + destruct (owned_insert (pumps s) i _ (ReadPump RP_select) Hi) as [_ ->].
      cbn [owned]. rewrite !elem_of_app. right. left. apply list_elem_of_here.
    + by rewrite Heq.
Qed.

(** X10: a packet's bytes are never overwritten once the read pump has
    put it into the Incoming Queue.  Every iteration reads into an array
    of its own, so through any later calls and pump steps the array
    behind a packet that was sent, and so every packet [Read] returns,
    stays byte for byte as it was delivered. *)
Theorem delivered_packets_keep_their_bytes
  (acts : list action) (s s' : System) (pkt : Packet) :
  reachable s →
  run acts s = Some s' →
  pkt ∈ sent_on Incoming (trace (world s)) →
  backing (heap (world s')) (Buf pkt) = backing (heap (world s)) (Buf pkt) ∧
  slice_bytes (heap (world s')) (Buf pkt) = slice_bytes (heap (world s)) (Buf pkt).
Proof.
  intros Hs Hrun Hin.
  cut (backing (heap (world s')) (Buf pkt) = backing (heap (world s)) (Buf pkt)).
  { intros Heq. split; [done|]. unfold slice_bytes. by rewrite Heq. }
  revert s Hs Hrun Hin. induction acts as [|a acts IH]; intros s Hs; cbn [run].
  - by intros [= <-].
  - destruct (sys_step a s) as [[o s1]|] eqn:Hstep; [|done]. intros Hrun Hin.
    rewrite (IH s1); [| by eapply reach_step | done
                      | by eapply sys_step_sent_grows].
    eapply sys_step_keeps_sent_bytes; [by apply reachable_heap_inv|done..].
Qed.

Lemma delivered_packets_keep_their_bytes_witness :
  slice_bytes (heap (world delivered_again_state))
              (mk_slice 2 2 PACKET_SIZE) = [x01; x02].
Proof.
  destruct (delivered_packets_keep_their_bytes
              [RunPump 0 0; RunPump 0 0; RunPump 0 0; CallRead]
              delivered_state delivered_again_state
              (mk_Packet (mk_slice 2 2 PACKET_SIZE) 2%N))
    as [_ Hbytes].
  - apply (run_reachable [CallBind; RunPump 0 0; RunPump 0 0; RunPump 0 0]
             (booted 0%N [inr [x01; x02]; inr [x03; x04; x05]])).
    + apply (reach_NewTun (boot 0%N 0%N 0%N [inr [x01; x02]; inr [x03; x04; x05]]));
        reflexivity.
    + vm_compute. reflexivity.
  - vm_compute. reflexivity.
  - vm_compute. apply list_elem_of_here.
  - cbn [Buf] in Hbytes. rewrite Hbytes. vm_compute. reflexivity.
Defined.

(** ** The echo program *)

Lemma NewTun_Some_world (w : World) (t : NetDevice) (err : option error)
  (w' : World) :
  NewTun w = (Some t, err, w') →
  err = None ∧
  t = mk_NetDevice (mk_File (k_fd w) false) (make_chan QUEUE_SIZE)
        (make_chan QUEUE_SIZE) None None ∧
  w' = emit (SysIoctl (k_fd w) TUNSETIFF tun0_ifreq)
         (set_fds (k_fd w :: fds w)
            (emit (SysOpen "/dev/net/tun" O_RDWR 0%Z) w)).
Proof.
  destruct (decide (k_open w = 0%N)) as [Hopen|Hopen].
  - rewrite (NewTun_open_success w Hopen).
    destruct (k_ioctl w =? 0)%N; [|done]. by intros [= <- <- <-].
  - by rewrite (NewTun_open_failure w Hopen).
Qed.

(** X11: the echo program drops the error of [NewTun].  When the open
    or the configuration request fails it goes on to call [Bind] on the
    nil device and panics with a nil dereference; the error is neither
    logged nor printed, and no read or write is ever made. *)
Theorem main_panics_when_NewTun_fails (w : World) :
  k_open w ≠ 0%N ∨ k_ioctl w ≠ 0%N →
  ∃ w', main_start w = StartPanic nil_dereference w' ∧
        (trace w' = trace w ++ [SysOpen "/dev/net/tun" O_RDWR 0%Z] ∨
         trace w' = trace w ++ [SysOpen "/dev/net/tun" O_RDWR 0%Z;
                                SysIoctl (k_fd w) TUNSETIFF tun0_ifreq]).
Proof.
  intros Hfail. unfold main_start.
  destruct (decide (k_open w = 0%N)) as [Hopen|Hopen].
  - destruct Hfail as [?|Hioctl]; [done|].
    rewrite (NewTun_open_success w Hopen).
    apply N.eqb_neq in Hioctl. rewrite Hioctl. cbn.
    eexists. split; [reflexivity|]. right. cbn. by rewrite <- app_assoc.
  - rewrite (NewTun_open_failure w Hopen). cbn.
    eexists. split; [reflexivity|]. by left.
Qed.

Lemma main_panics_when_NewTun_fails_witness :
  ∃ w', main_start (boot 13%N 0%N 0%N []) = StartPanic nil_dereference w' ∧
        (trace w' = [SysOpen "/dev/net/tun" O_RDWR 0%Z] ∨
         trace w' = [SysOpen "/dev/net/tun" O_RDWR 0%Z;
                     SysIoctl 3%N TUNSETIFF tun0_ifreq]).
Proof.
  apply (main_panics_when_NewTun_fails (boot 13%N 0%N 0%N [])).
  left. vm_compute. discriminate.
Defined.

Lemma extends_silently_histories (w w' : World) (q : queue_id) :
  extends_silently w w' →
  sent_on q (trace w') = sent_on q (trace w) ∧
  received_on q (trace w') = received_on q (trace w).
Proof.
  intros (evs & -> & Hev). destruct (Hev q) as [Hs Hr].
  by rewrite sent_on_app, received_on_app, Hs, Hr, !app_nil_r.
Qed.

Lemma read_pump_step_echo_frame (pc : rp_pc) (t : NetDevice) (w : World) :
  post (λ _ w',
          sent_on Outgoing (trace w') = sent_on Outgoing (trace w) ∧
          received_on Incoming (trace w') = received_on Incoming (trace w))
       (read_pump_step pc t w).
Proof.
  destruct pc as [|buf|p|]; cbn [read_pump_step].
  - unfold make_bytes. crush_op.
  - pose proof (read_frame buf t w) as Hfr.
    destruct (read buf t w) as [[n err] t1 w1|msg t1 w1|]; cbn in Hfr |- *;
      [| |done]; destruct Hfr as [-> Hext].
    + assert (Hext' : extends_silently w (log_Printf "read error: " err w1))
        by (eapply extends_silently_trans; [done|apply extends_silently_log]).
      destruct (extends_silently_histories _ _ Outgoing Hext') as [Hs _].
      destruct (extends_silently_histories _ _ Incoming Hext') as [_ Hr].
      by destruct (reslice buf n).
    + destruct (extends_silently_histories _ _ Outgoing Hext) as [-> _].
      by destruct (extends_silently_histories _ _ Incoming Hext) as [_ ->].
  - unfold chan_send. destruct (c_closed _); [done|].
    destruct (_ <? _); [|done]. cbn [post].
    rewrite sent_on_emit, received_on_emit. cbn. by rewrite !app_nil_r.
  - done.
Qed.

Lemma write_pump_step_echo_frame (choice : nat) (pc : wp_pc) (t : NetDevice)
  (w : World) :
  post (λ _ w',
          sent_on Outgoing (trace w') = sent_on Outgoing (trace w) ∧
          received_on Incoming (trace w') = received_on Incoming (trace w))
       (write_pump_step choice pc t w).
Proof.
  destruct pc; cbn [write_pump_step]; [|done].
  destruct (ctx t) as [c|]; [|done]. destruct (go_select _ _ _); [done| |done].
  destruct (chan_recv (outgoingQueue t)) as [p ok q|]; [|done].
  set (t1 := set_outgoingQueue q t).
  set (w1 := if ok then emit (Received Outgoing p) w else w).
  assert (Hw1 : sent_on Outgoing (trace w1) = sent_on Outgoing (trace w) ∧
                received_on Incoming (trace w1) = received_on Incoming (trace w)).
  { subst w1. destruct ok; [|done].
    rewrite sent_on_emit, received_on_emit. cbn. by rewrite !app_nil_r. }
  destruct Hw1 as [Hs Hr].
  destruct (reslice (Buf p) (N p)) as [b|]; [|done].
  pose proof (write_frame b t1 w1) as Hfr.
  destruct (write b t1 w1) as [[n err] t2 w2|msg t2 w2|]; cbn in Hfr |- *;
    [| |done]; destruct Hfr as [-> Hext].
  - assert (Hext' : extends_silently w1 (log_Printf "write error: " err w2))
      by (eapply extends_silently_trans; [done|apply extends_silently_log]).
    destruct (extends_silently_histories _ _ Outgoing Hext') as [-> _].
    by destruct (extends_silently_histories _ _ Incoming Hext') as [_ ->].
  - destruct (extends_silently_histories _ _ Outgoing Hext) as [-> _].
    by destruct (extends_silently_histories _ _ Incoming Hext) as [_ ->].
Qed.

(** A pump step leaves the main goroutine's side of the queues, the
    file, the descriptors and the contexts alone. *)
Lemma pump_step_frame (i choice : nat) (s : System) (o : observation)
  (s' : System) :
  sys_step (RunPump i choice) s = Some (o, s') →
  sent_on Outgoing (trace (world s')) = sent_on Outgoing (trace (world s)) ∧
  received_on Incoming (trace (world s')) =
    received_on Incoming (trace (world s)) ∧
  file (dev s') = file (dev s) ∧
  fds (world s') = fds (world s) ∧
  ctxs (world s') = ctxs (world s) ∧
  ctx (dev s') = ctx (dev s).
Proof.
  intros Hstep.
  pose proof (sys_step_ctxs _ _ _ _ Hstep) as Hc. cbn in Hc.
  assert (Hne : RunPump i choice ≠ CallBind) by done.
  destruct (sys_step_keeps_context _ _ _ _ Hne Hstep) as [Hctx _].
  revert Hstep. unfold sys_step. destruct (crashed s); [done|].
  destruct (pumps s !! i) as [[pc|pc]|]; [| |done]; cbn [run_goroutine].
  - pose proof (read_pump_step_echo_frame pc (dev s) (world s)) as HF.
    pose proof (read_pump_step_world pc (dev s) (world s)) as HW.
    destruct (read_pump_step pc (dev s) (world s)) as [pc' t w|msg t w|];
      [| |done]; intros [= <- <-]; cbn in *;
      destruct HF as [-> ->], HW as (-> & _ & -> & _); by split_and!.
  - pose proof (write_pump_step_echo_frame choice pc (dev s) (world s)) as HF.
    pose proof (write_pump_step_world choice pc (dev s) (world s)) as HW.
    destruct (write_pump_step choice pc (dev s) (world s)) as [pc' t w|msg t w|];
      [| |done]; intros [= <- <-]; cbn in *;
      destruct HF as [-> ->], HW as (-> & _ & -> & _); by split_and!.
Qed.

Lemma produced_reslice (p : Packet) :
  produced p →
  reslice (Buf p) (N p) =
    Some (mk_slice (s_ptr (Buf p)) (s_len (Buf p)) (s_cap (Buf p))).
Proof.
  intros (HN & Hle & _). unfold reslice. rewrite HN.
  rewrite (proj2 (N.leb_le _ _)) by lia. by rewrite Nat2N.id.
Qed.

(** What a completed [Read] does in a reachable state. *)
Lemma CallRead_spec (s : System) (o : observation) (s' : System) :
  reachable s →
  sys_step CallRead s = Some (o, s') →
  ∃ p0 rest,
    c_buf (incomingQueue (dev s)) = p0 :: rest ∧
    produced p0 ∧
    o = GotPacket p0 None ∧
    s' = mk_System
           (set_incomingQueue
              (mk_chan rest (c_cap (incomingQueue (dev s)))
                       (c_closed (incomingQueue (dev s)))) (dev s))
           (emit (Received Incoming p0) (world s)) (pumps s) false.
Proof.
  intros Hs. destruct (reachable_sys_inv s Hs) as (Hq & _ & _).
  destruct (Hq Incoming) as (_ & Hopen & _). cbn [queue_of] in Hopen.
  destruct (reachable_produced s Hs) as [_ Hprod].
  unfold sys_step. destruct (crashed s); [done|]. rewrite Read_spec, Hopen.
  destruct (c_buf (incomingQueue (dev s))) as [|p0 rest]; [done|].
  intros [= <- <-]. exists p0, rest. split_and!; try done.
  by apply Forall_cons in Hprod as [? _].
Qed.

(** What a completed [Write] does while the token is not set. *)
Lemma CallWrite_spec (choice : nat) (pkt : Packet) (s : System) (c : nat)
  (o : observation) (s' : System) :
  reachable s →
  ctx (dev s) = Some c →
  Done_ready (world s) c = false →
  sys_step (CallWrite choice pkt) s = Some (o, s') →
  o = GotError None ∧
  s' = mk_System
         (set_outgoingQueue
            (mk_chan (c_buf (outgoingQueue (dev s)) ++ [pkt])
                     (c_cap (outgoingQueue (dev s))) false) (dev s))
         (emit (Sent Outgoing pkt) (world s)) (pumps s) false.
Proof.
  intros Hs Hctx Hdone. destruct (reachable_sys_inv s Hs) as (Hq & _ & _).
  destruct (Hq Outgoing) as (_ & Hopen & _). cbn [queue_of] in Hopen.
  unfold sys_step. destruct (crashed s); [done|].
  unfold Write, chan_send. rewrite Hctx, Hdone, (can_send_open _ Hopen), Hopen.
  destruct (_ <? _) eqn:Hroom; cbn [go_select]; [|done].
  by intros [= <- <-].
Qed.

Lemma program_run_reaches (w : World) (sched : list (thread * nat))
  (p p' : Program) :
  main_reaches w p → program_run sched p = Some p' → main_reaches w p'.
Proof.
  revert p. induction sched as [|[th choice] sched IH]; intros p Hp; cbn.
  - by intros [= <-].
  - destruct (program_step th choice p) as [p1|] eqn:Hstep; [|done].
    apply IH. by eapply main_steps.
Qed.

Lemma main_start_Started (w : World) (p : Program) :
  main_start w = Started p →
  let w1 := emit (SysIoctl (k_fd w) TUNSETIFF tun0_ifreq)
              (set_fds (k_fd w :: fds w)
                 (emit (SysOpen "/dev/net/tun" O_RDWR 0%Z) w)) in
  NewTun w = (Some (mk_NetDevice (mk_File (k_fd w) false) (make_chan QUEUE_SIZE)
                      (make_chan QUEUE_SIZE) None None), None, w1) ∧
  p = mk_Program
        (mk_System
           (mk_NetDevice (mk_File (k_fd w) false) (make_chan QUEUE_SIZE)
              (make_chan QUEUE_SIZE) (Some (length (ctxs w)))
              (Some (length (ctxs w))))
           (set_ctxs (ctxs w ++ [false]) w1)
           [ReadPump RP_select; WritePump WP_select] false)
        M_Read [].
Proof.
  unfold main_start. destruct (NewTun w) as [[network err] w1] eqn:Hnew.
  destruct network as [t|]; [|done].
  apply NewTun_Some_world in Hnew as (-> & -> & ->). by intros [= <-].
Qed.

Lemma main_start_echo_inv (w : World) (p : Program) :
  trace w = [] → main_start w = Started p →
  echo_inv p ∧ crashed (sys p) = false ∧ dev_rx (world (sys p)) = dev_rx w ∧
  sent_on Incoming (trace (world (sys p))) = [] ∧
  pumps (sys p) = [ReadPump RP_select; WritePump WP_select].
Proof.
  intros Htr [Hnew ->]%main_start_Started.
  split; [|by cbn; rewrite Htr]. unfold echo_inv. cbn [sys pc stdout in_hand].
  split_and!.
  - eapply (reach_step _ CallBind); [by eapply reach_NewTun|]. reflexivity.
  - cbn. by rewrite Htr.
  - cbn. by rewrite Htr.
  - eexists. split; [reflexivity|]. unfold Done_ready. cbn.
    by rewrite lookup_app_r, Nat.sub_diag.
  - done.
  - cbn. apply list_elem_of_here.
Qed.

Lemma program_step_echo_inv (th : thread) (choice : nat) (p p' : Program) :
  echo_inv p → program_step th choice p = Some p' → echo_inv p'.
Proof.
  intros (Hreach & Hecho & Hlen & (c & Hctx & Hdone) & Hopen & Hfd) Hstep.
  destruct th as [|i]; cbn [program_step] in Hstep.
  - unfold main_step in Hstep. unfold in_hand in Hecho.
    destruct (pc p) as [|pkt] eqn:Hpc.
    + destruct (sys_step CallRead (sys p)) as [[o s1]|] eqn:HR; [|done].
      destruct (CallRead_spec _ _ _ Hreach HR) as (p0 & rest & Hbuf & Hprod & -> & Hs1).
      rewrite (produced_reslice _ Hprod) in Hstep. injection Hstep as <-.
      rewrite app_nil_r in Hecho.
      unfold echo_inv. cbn [sys pc stdout in_hand]. split_and!.
      * by eapply reach_step.
      * rewrite Hs1. cbn [world]. rewrite sent_on_emit, received_on_emit.
        cbn. by rewrite app_nil_r, Hecho.
      * rewrite Hs1. cbn [world]. rewrite received_on_emit, !length_app.
        cbn. by rewrite Hlen.
      * exists c. by rewrite Hs1.
      * by rewrite Hs1.
      * by rewrite Hs1.
    + destruct (sys_step (CallWrite choice pkt) (sys p)) as [[o s1]|] eqn:HW;
        [|done].
      injection Hstep as <-.
      destruct (CallWrite_spec _ _ _ _ _ _ Hreach Hctx Hdone HW) as (-> & Hs1).
      unfold echo_inv. cbn [sys pc stdout in_hand]. split_and!.
      * by eapply reach_step.
      * rewrite Hs1. cbn [world]. rewrite sent_on_emit, received_on_emit.
        cbn. by rewrite !app_nil_r.
      * rewrite Hs1. cbn [world]. rewrite received_on_emit. cbn.
        by rewrite app_nil_r.
      * exists c. by rewrite Hs1.
      * by rewrite Hs1.
      * by rewrite Hs1.
  - destruct (sys_step (RunPump i choice) (sys p)) as [[o s1]|] eqn:HP; [|done].
    injection Hstep as <-.
    destruct (pump_step_frame _ _ _ _ _ HP) as (Hs & Hr & Hf & Hd & Hc & Hx).
    unfold echo_inv, in_hand, Done_ready in *. cbn [sys pc stdout].
    rewrite Hs, Hr, Hf, Hd, Hc, Hx. split_and!; try done.
    + by eapply reach_step.
    + by exists c.
Qed.

Lemma main_reaches_echo_inv (w : World) (p : Program) :
  main_reaches w p → echo_inv p.
Proof.
  induction 1 as [p Htr Hstart | p th choice p' _ IH Hstep].
  - by apply (main_start_echo_inv w).
  - by eapply program_step_echo_inv.
Qed.

(** X12: the echo program forwards packets in order, without loss or
    duplication.  In every state it reaches, the packets the read pump
    has put into the Incoming Queue are exactly: those the write pump
    has taken out of the Outgoing Queue, then those waiting in the
    Outgoing Queue, then the one the main goroutine holds, then those
    waiting in the Incoming Queue.  It has printed one dump for every
    packet it has read, the token is never set and the file stays
    open. *)
Theorem echo_program_forwards_in_order (w : World) (p : Program) :
  main_reaches w p →
  let s := sys p in
  received_on Outgoing (trace (world s)) ++ c_buf (outgoingQueue (dev s)) ++
    in_hand p ++ c_buf (incomingQueue (dev s)) =
    sent_on Incoming (trace (world s)) ∧
  length (stdout p) = length (received_on Incoming (trace (world s))) ∧
  (∃ c, ctx (dev s) = Some c ∧ Done_ready (world s) c = false) ∧
  f_closed (file (dev s)) = false.
Proof.
  intros (Hreach & Hecho & Hlen & Htoken & Hopen & _)%main_reaches_echo_inv.
  destruct (reachable_sys_inv _ Hreach) as (Hq & _ & _).
  destruct (Hq Incoming) as (_ & _ & _ & Hin).
  destruct (Hq Outgoing) as (_ & _ & _ & Hout). cbn [queue_of] in Hin, Hout.
  cbn zeta. split_and!; try done.
  by rewrite Hin, <- Hecho, Hout, <- !app_assoc.
Qed.

Lemma echo_program_forwards_in_order_witness :
  received_on Outgoing (trace (world (sys echo_program))) =
    sent_on Incoming (trace (world (sys echo_program))) ∧
  length (stdout echo_program) = 2.
Proof.
  destruct (echo_program_forwards_in_order echo_world echo_program)
    as (Hfwd & Hlen & _).
  - apply (program_run_reaches echo_world echo_schedule_main echo_program_start).
    + apply main_started; reflexivity.
    + vm_compute. reflexivity.
  - split; [|rewrite Hlen; vm_compute; reflexivity].
    rewrite <- Hfwd. vm_compute. reflexivity.
Defined.

(** In the echo program every packet in the Outgoing Queue was put into
    the Incoming Queue by the read pump. *)
Lemma echo_outgoing_from_read_pump (p : Program) (p0 : Packet) :
  echo_inv p →
  p0 ∈ c_buf (outgoingQueue (dev (sys p))) →
  p0 ∈ sent_on Incoming (trace (world (sys p))).
Proof.
  intros (Hreach & Hecho & _) Hin0.
  destruct (reachable_sys_inv _ Hreach) as (Hq & _ & _).
  destruct (Hq Incoming) as (_ & _ & _ & Hin).
  destruct (Hq Outgoing) as (_ & _ & _ & Hout). cbn [queue_of] in Hin, Hout.
  rewrite Hin, <- Hecho, Hout. rewrite !elem_of_app. auto.
Qed.

Lemma read_pump_step_healthy (pc0 : rp_pc) (t : NetDevice) (w : World) (c : nat) :
  ctx t = Some c →
  c_closed (incomingQueue t) = false →
  f_closed (file t) = false →
  f_fd (file t) ∈ fds w →
  healthy_rx (dev_rx w) →
  rp_ok pc0 →
  match pc0 with RP_send pkt => (1 <= N pkt)%N | _ => True end →
  match read_pump_step pc0 t w with
  | Returns pc1 t' w' =>
      healthy_rx (dev_rx w') ∧
      match pc1 with RP_send pkt => (1 <= N pkt)%N | _ => True end
  | Panics _ _ _ => False
  | Blocks => True
  end.
Proof.
  intros Hctx Hq Hopen Hfd Hrx Hok Hpos.
  destruct pc0 as [|buf|pkt|]; cbn [read_pump_step].
  - rewrite Hctx. by destruct (Done_ready w c).
  - destruct Hok as [Hlen Hcap]. unfold read, Syscall_read, Fd.
    rewrite Hlen, Hopen. change (PACKET_SIZE =? 0) with false. cbn match.
    rewrite bool_decide_eq_true_2 by done.
    destruct (dev_rx w) as [|[e|[|b0 data]] rx]; [done|..];
      try (by apply Forall_cons in Hrx as [? _]).
    apply Forall_cons in Hrx as [_ Hrx].
    rewrite N.eqb_refl. cbn [negb log_Printf]. unfold reslice. rewrite Hcap.
    rewrite (proj2 (N.leb_le _ _)) by lia.
    split; [done|]. cbn [N length]. unfold PACKET_SIZE. lia.
  - unfold chan_send. rewrite Hq. by destruct (_ <? _).
  - done.
Qed.

Lemma write_pump_step_healthy (choice : nat) (pc0 : wp_pc) (t : NetDevice)
  (w : World) (c : nat) :
  ctx t = Some c →
  c_closed (outgoingQueue t) = false →
  Forall (λ pkt, produced pkt ∧ (1 <= N pkt)%N) (c_buf (outgoingQueue t)) →
  ∀ msg t' w', write_pump_step choice pc0 t w ≠ Panics msg t' w'.
Proof.
  intros Hctx Hq Hgood msg t' w'. destruct pc0; cbn [write_pump_step]; [|done].
  rewrite Hctx. destruct (go_select _ _ _); [done| |done].
  unfold chan_recv. rewrite Hq.
  destruct (c_buf (outgoingQueue t)) as [|p0 rest]; [done|].
  apply Forall_cons in Hgood as [[Hprod Hpos] _].
  rewrite (produced_reslice _ Hprod). unfold write. cbn [s_len].
  destruct Hprod as (HN & _).
  rewrite (proj2 (Nat.eqb_neq (s_len (Buf p0)) 0)) by lia.
  by destruct (Syscall_write _ _ _) as [[n e] w2], (negb _).
Qed.

Lemma program_step_healthy_inv (th : thread) (choice : nat) (p p' : Program) :
  echo_inv p → healthy_inv p → program_step th choice p = Some p' →
  healthy_inv p'.
Proof.
  intros Hecho (Hlive & Hrx & Hsent & Hpumps) Hstep.
  pose proof Hecho as (Hreach & _ & _ & (c & Hctx & Hdone) & Hopen & Hfd).
  destruct (reachable_sys_inv _ Hreach) as (Hq & Hok & Hprod).
  destruct th as [|i]; cbn [program_step] in Hstep.
  - unfold main_step in Hstep. destruct (pc p) as [|pkt] eqn:Hpc.
    + destruct (sys_step CallRead (sys p)) as [[o s1]|] eqn:HR; [|done].
      destruct (CallRead_spec _ _ _ Hreach HR) as (p0 & rest & _ & Hp0 & -> & Hs1).
      rewrite (produced_reslice _ Hp0) in Hstep. injection Hstep as <-.
      unfold healthy_inv. cbn [sys]. rewrite Hs1. cbn [crashed world pumps].
      rewrite sent_on_emit. cbn. by rewrite app_nil_r.
    + destruct (sys_step (CallWrite choice pkt) (sys p)) as [[o s1]|] eqn:HW;
        [|done].
      injection Hstep as <-.
      destruct (CallWrite_spec _ _ _ _ _ _ Hreach Hctx Hdone HW) as (-> & Hs1).
      unfold healthy_inv. cbn [sys]. rewrite Hs1. cbn [crashed world pumps].
      rewrite sent_on_emit. cbn. by rewrite app_nil_r.
  - destruct (sys_step (RunPump i choice) (sys p)) as [[o s1]|] eqn:HP; [|done].
    injection Hstep as <-. unfold healthy_inv. cbn [sys].
    revert HP. unfold sys_step. rewrite Hlive.
    destruct (pumps (sys p) !! i) as [[pc0|pc0]|] eqn:Hi; [| |done];
      cbn [run_goroutine].
    + pose proof (Forall_lookup_1 _ _ _ _ Hok Hi) as Hok0.
      pose proof (Forall_lookup_1 _ _ _ _ Hpumps Hi) as Hpos0. cbn in Hok0, Hpos0.
      destruct (Hq Incoming) as (_ & Hqopen & _). cbn [queue_of] in Hqopen.
      pose proof (read_pump_step_healthy pc0 _ (world (sys p)) c
                    Hctx Hqopen Hopen Hfd Hrx Hok0) as HH.
      pose proof (read_pump_step_effect pc0 (dev (sys p)) (world (sys p))) as HE.
      destruct (read_pump_step pc0 (dev (sys p)) (world (sys p)))
        as [pc1 t w1|msg t w1|]; [| |done].
      * intros [= <- <-]. cbn [crashed world pumps]. cbn in HE.
        destruct HE as [_ ->]. destruct HH as [Hrx' Hpos1].
        { destruct pc0; try done. }
        split_and!; try done.
        -- apply Forall_app. split; [done|].
           destruct pc0; cbn; try constructor; [exact Hpos0|constructor].
        -- by apply Forall_insert.
      * exfalso. apply HH. by destruct pc0.
    + destruct (Hq Outgoing) as (_ & Hqopen & _). cbn [queue_of] in Hqopen.
      assert (Hgood : Forall (λ pkt, produced pkt ∧ (1 <= N pkt)%N)
                        (c_buf (outgoingQueue (dev (sys p))))).
      { apply Forall_forall. intros p0 Hin0.
        apply (echo_outgoing_from_read_pump p p0 Hecho) in Hin0.
        rewrite Forall_forall in Hprod, Hsent. auto. }
      pose proof (write_pump_step_healthy choice pc0 _ (world (sys p)) c
                    Hctx Hqopen Hgood) as HH.
      pose proof (write_pump_step_effect choice pc0 (dev (sys p)) (world (sys p)))
        as HE.
      pose proof (write_pump_step_world choice pc0 (dev (sys p)) (world (sys p)))
        as HW.
      destruct (write_pump_step choice pc0 (dev (sys p)) (world (sys p)))
        as [pc1 t w1|msg t w1|]; [| |done].
      * intros [= <- <-]. cbn [crashed world pumps]. cbn in HE, HW.
        destruct HE as [_ ->], HW as (_ & _ & _ & _ & ->).
        split_and!; try done. by apply Forall_insert.
      * by destruct (HH msg t w1).
Qed.

(** X13: on a device whose reads all succeed with at least one byte,
    the echo program never panics: not in the main goroutine's slice
    expression, not in a pump.  (A failed or empty read, by contrast,
    gives a packet of length 0 that brings the write pump down.) *)
Theorem echo_program_never_panics (w : World) (p : Program) :
  main_reaches w p →
  healthy_rx (dev_rx w) →
  crashed (sys p) = false ∧
  Forall (λ pkt, produced pkt ∧ (1 <= N pkt)%N)
         (sent_on Incoming (trace (world (sys p)))).
Proof.
  intros Hp Hrx.
  cut (echo_inv p ∧ healthy_inv p).
  { intros [(Hreach & _) (Hlive & _ & Hpos & _)]. split; [done|].
    destruct (reachable_sys_inv _ Hreach) as (_ & _ & Hprod).
    rewrite Forall_forall in Hprod, Hpos. apply Forall_forall. auto. }
  induction Hp as [p Htr Hstart | p th choice p' _ [IHe IHh] Hstep].
  - destruct (main_start_echo_inv w p Htr Hstart)
      as (He & Hlive & Hdev & Hsent & Hpumps).
    split; [done|]. unfold healthy_inv. rewrite Hlive, Hdev, Hsent, Hpumps.
    split_and!; try done. by repeat constructor.
  - split; [by eapply program_step_echo_inv | by eapply program_step_healthy_inv].
Qed.

Lemma echo_program_never_panics_witness :
  crashed (sys echo_program) = false ∧
  Forall (λ pkt, produced pkt ∧ (1 <= N pkt)%N)
         (sent_on Incoming (trace (world (sys echo_program)))).
Proof.
  apply (echo_program_never_panics echo_world echo_program).
  - apply (program_run_reaches echo_world echo_schedule_main echo_program_start).
    + apply main_started; reflexivity.
    + vm_compute. reflexivity.
  - repeat constructor.
Defined.

(** ** The bytes the echo program writes back *)

Lemma writes_of_app (tr evs : list event) :
  writes_of (tr ++ evs) = writes_of tr ++ writes_of evs.
Proof. apply omap_app. Qed.

Lemma take_min_length {A : Type} (n : nat) (l : list A) :
  take (n `min` length l) l = take n l.
Proof.
  destruct (decide (n ≤ length l)) as [Hle|Hgt].
  - by rewrite Nat.min_l.
  - rewrite Nat.min_r by lia. by rewrite !take_ge by lia.
Qed.

Lemma slice_eta (h : list (list byte)) (b : slice) :
  slice_bytes h (mk_slice (s_ptr b) (s_len b) (s_cap b)) = slice_bytes h b.
Proof. done. Qed.

(** A successful raw read, as the read pump sees it. *)
Lemma read_pump_read_spec (buf : slice) (t : NetDevice) (w : World)
  (data : list byte) (rx : list (positive + list byte)) :
  s_len buf = PACKET_SIZE → s_cap buf = PACKET_SIZE →
  f_closed (file t) = false → f_fd (file t) ∈ fds w →
  dev_rx w = inr data :: rx →
  let n := PACKET_SIZE `min` length data in
  read_pump_step (RP_read buf) t w =
    Returns (RP_send (mk_Packet (mk_slice (s_ptr buf) n PACKET_SIZE) (N.of_nat n)))
      t
      (set_heap (alter (λ arr, take n data ++ drop n arr) (s_ptr buf) (heap w))
         (set_dev_rx rx
            (emit (SysRead (f_fd (file t)) (s_ptr buf) PACKET_SIZE) w))).
Proof.
  intros Hlen Hcap Hopen Hfd Hrx n. cbn [read_pump_step].
  unfold read, Syscall_read, Fd. rewrite Hlen, Hopen, Hrx.
  change (PACKET_SIZE =? 0) with false. cbn match.
  rewrite bool_decide_eq_true_2 by done. rewrite N.eqb_refl.
  cbn [negb log_Printf]. unfold reslice. rewrite Hcap.
  rewrite (proj2 (N.leb_le _ _)) by lia. by rewrite Nat2N.id.
Qed.

(** A write pump step that takes out a packet the read pump made. *)
Lemma write_pump_write_spec (choice : nat) (t : NetDevice) (w : World) (c : nat)
  (p0 : Packet) (rest : list Packet) :
  ctx t = Some c →
  Done_ready w c = false →
  c_buf (outgoingQueue t) = p0 :: rest →
  produced p0 → (1 <= N p0)%N →
  ∃ t' w' log,
    write_pump_step choice WP_select t w = Returns WP_select t' w' ∧
    heap w' = heap w ∧ dev_rx w' = dev_rx w ∧
    trace w' = trace w ++
      [Received Outgoing p0; SysWrite (Fd (file t)) (bytes_of (heap w) p0)] ++ log ∧
    writes_of log = [] ∧ silent log.
Proof.
  intros Hctx Hdone Hbuf Hprod Hpos.
  assert (Hsel : go_select choice (Done_ready w c) true = Case2)
    by (by rewrite Hdone).
  rewrite (write_pump_dequeues choice t w c p0 rest Hctx Hsel Hbuf).
  rewrite (produced_reslice _ Hprod). unfold write. cbn [s_len].
  destruct Hprod as (HN & _).
  rewrite (proj2 (Nat.eqb_neq (s_len (Buf p0)) 0)) by lia.
  rewrite slice_eta. cbn [file set_outgoingQueue].
  change (heap (emit (Received Outgoing p0) w)) with (heap w).
  fold (bytes_of (heap w) p0).
  set (w1 := emit (Received Outgoing p0) w).
  destruct (Syscall_write_trace (Fd (file t)) (bytes_of (heap w) p0) w1)
    as [Htr Hheap].
  assert (Hrx : dev_rx (Syscall_write (Fd (file t)) (bytes_of (heap w) p0) w1).2
                = dev_rx w1) by (unfold Syscall_write; by repeat case_match).
  destruct (Syscall_write _ _ w1) as [[n e] w2]. cbn [snd] in Htr, Hheap, Hrx.
  destruct (negb (e =? 0)%N).
  - eexists _, _, [Log _]. split; [reflexivity|]. cbn [log_Printf].
    split_and!; try done. cbn [trace emit]. rewrite Htr. subst w1.
    cbn [trace emit]. by rewrite <- !app_assoc.
  - eexists _, _, []. split; [reflexivity|]. cbn [log_Printf].
    split_and!; try done. rewrite Htr. subst w1.
    cbn [trace emit]. by rewrite <- !app_assoc.
Qed.

Lemma step_result_eq {A B : Type} (a a' : A) (b b' : B) :
  Some (a, b) = Some (a', b') → a = a' ∧ b = b'.
Proof. by intros [= -> ->]. Qed.

Lemma writes_of_emit (e : event) (w : World) :
  writes_of (trace (emit e w)) = writes_of (trace w) ++ writes_of [e].
Proof. apply writes_of_app. Qed.

Lemma bytes_of_stable (a : action) (s : System) (o : observation) (s' : System)
  (l : list Packet) :
  reachable s → sys_step a s = Some (o, s') →
  (∀ x, x ∈ l → x ∈ sent_on Incoming (trace (world s))) →
  bytes_of (heap (world s')) <$> l = bytes_of (heap (world s)) <$> l.
Proof.
  intros Hs Hstep Hl. apply Forall_fmap_ext_1, Forall_forall. intros x Hx.
  unfold bytes_of, slice_bytes.
  by rewrite (sys_step_keeps_sent_bytes a s o s' x (reachable_heap_inv s Hs) Hstep
                (Hl x Hx)).
Qed.

Lemma echo_received_were_sent (p : Program) :
  echo_inv p →
  (∀ x, x ∈ received_on Incoming (trace (world (sys p))) →
        x ∈ sent_on Incoming (trace (world (sys p)))) ∧
  (∀ x, x ∈ received_on Outgoing (trace (world (sys p))) →
        x ∈ sent_on Incoming (trace (world (sys p)))).
Proof.
  intros (Hreach & Hecho & _).
  destruct (reachable_sys_inv _ Hreach) as (Hq & _ & _).
  destruct (Hq Incoming) as (_ & _ & _ & Hin).
  destruct (Hq Outgoing) as (_ & _ & _ & Hout). cbn [queue_of] in Hin, Hout.
  rewrite Hin, <- Hecho, Hout.
  split; intros x Hx; rewrite ?elem_of_app in Hx; rewrite !elem_of_app; tauto.
Qed.

Lemma main_step_bytes_inv (rx0 : list (positive + list byte)) (choice : nat)
  (p p' : Program) :
  echo_inv p → bytes_inv rx0 p → main_step choice p = Some p' →
  bytes_inv rx0 p'.
Proof.
  intros (Hreach & _ & _ & (c & Hctx & Hdone) & _) (R1 & R2 & R3 & R4) Hstep.
  unfold main_step in Hstep. destruct (pc p) as [|pkt].
  - destruct (sys_step CallRead (sys p)) as [[o s1]|] eqn:HR; [|done].
    destruct (CallRead_spec _ _ _ Hreach HR) as (p0 & rest & _ & Hp0 & -> & Hs1).
    rewrite (produced_reslice _ Hp0), slice_eta in Hstep. injection Hstep as <-.
    unfold bytes_inv. cbn [sys stdout]. rewrite Hs1. cbn [world pumps].
    rewrite sent_on_emit, !received_on_emit, writes_of_emit.
    cbn [heap dev_rx emit]. cbn. rewrite !app_nil_r.
    split_and!; try done. by rewrite R3, fmap_app.
  - destruct (sys_step (CallWrite choice pkt) (sys p)) as [[o s1]|] eqn:HW;
      [|done].
    injection Hstep as <-.
    destruct (CallWrite_spec _ _ _ _ _ _ Hreach Hctx Hdone HW) as (-> & Hs1).
    unfold bytes_inv. cbn [sys stdout]. rewrite Hs1. cbn [world pumps].
    rewrite sent_on_emit, !received_on_emit, writes_of_emit.
    cbn [heap dev_rx emit]. cbn. by rewrite !app_nil_r.
Qed.

Lemma pump_step_bytes_inv (rx0 : list (positive + list byte)) (i choice : nat)
  (p : Program) (o : observation) (s1 : System) :
  echo_inv p → healthy_inv p → bytes_inv rx0 p →
  sys_step (RunPump i choice) (sys p) = Some (o, s1) →
  bytes_inv rx0 (mk_Program s1 (pc p) (stdout p)).
Proof.
  intros Hecho (Hlive & Hrx & Hsent & Hpos) (R1 & R2 & R3 & (pc1 & pc2 & Hpumps)) HP.
  pose proof Hecho as (Hreach & _ & _ & (c & Hctx & Hdone) & Hopen & Hfd).
  destruct (echo_received_were_sent p Hecho) as [Hin_sent Hout_sent].
  destruct (reachable_sys_inv _ Hreach) as (Hq & Hok & Hprod).
  pose proof (bytes_of_stable _ _ _ _ (sent_on Incoming (trace (world (sys p))))
                Hreach HP ltac:(done)) as Ssent.
  pose proof (bytes_of_stable _ _ _ _ _ Hreach HP Hin_sent) as Sin.
  pose proof (bytes_of_stable _ _ _ _ _ Hreach HP Hout_sent) as Sout.
  revert HP Ssent Sin Sout. unfold sys_step. rewrite Hlive, Hpumps.
  rewrite Hpumps in Hok, Hpos, R1.
  destruct i as [|[|i]]; [| |done]; cbn [lookup list_lookup run_goroutine].
  - (* the read pump *)
    apply Forall_cons in Hok as [Hok1 _]. apply Forall_cons in Hpos as [Hpos1 _].
    cbn in Hok1. destruct (Hq Incoming) as (_ & Hqopen & _).
    cbn [queue_of] in Hqopen.
    destruct pc1 as [|buf|pkt|].
    + rewrite (read_pump_select_alloc _ _ c Hctx Hdone).
      intros [_ <-]%step_result_eq Ssent Sin Sout. unfold bytes_inv.
      cbn [sys stdout world pumps] in *.
      change (trace (make_bytes PACKET_SIZE (world (sys p))).2)
        with (trace (world (sys p))).
      change (dev_rx (make_bytes PACKET_SIZE (world (sys p))).2)
        with (dev_rx (world (sys p))).
      rewrite Ssent, Sin, Sout. cbn [fmap list_fmap insert list_insert pending concat].
      split_and!; eauto.
    + destruct Hok1 as [Hlen Hcap].
      destruct (dev_rx (world (sys p))) as [|[e|data] rx] eqn:Hdev.
      * cbn [read_pump_step]. unfold read, Syscall_read, Fd.
        rewrite Hlen, Hopen, Hdev. change (PACKET_SIZE =? 0) with false.
        cbn match. by rewrite bool_decide_eq_true_2.
      * by apply Forall_cons in Hrx as [? _].
      * rewrite (read_pump_read_spec buf _ _ data rx Hlen Hcap Hopen Hfd Hdev).
        intros [_ <-]%step_result_eq Ssent Sin Sout. unfold bytes_inv.
        cbn [sys stdout world pumps heap trace dev_rx set_heap set_dev_rx emit] in *.
        rewrite sent_on_app, !received_on_app, writes_of_app.
        change (sent_on Incoming [SysRead _ _ _]) with (@nil Packet).
        change (received_on Incoming [SysRead _ _ _]) with (@nil Packet).
        change (received_on Outgoing [SysRead _ _ _]) with (@nil Packet).
        change (writes_of [SysRead _ _ _]) with (@nil (list byte)).
        rewrite !app_nil_r. rewrite Ssent, Sin, Sout.
        cbn [fmap list_fmap insert list_insert pending concat].
        split_and!; eauto.
        rewrite R1. cbn [fmap list_fmap pending concat datas omap app].
        f_equal. f_equal.
        unfold bytes_of, slice_bytes, backing. cbn [Buf s_len s_ptr].
        rewrite list_lookup_alter_eq.
        destruct (reachable_heap_inv _ Hreach) as [_ Hlt].
        unfold pump_arrays in Hlt. rewrite Hpumps in Hlt. cbn in Hlt.
        apply Forall_cons in Hlt as [Hlt _].
        destruct (lookup_lt_is_Some_2 _ _ Hlt) as [arr ->]. cbn.
        rewrite take_app_length' by (rewrite length_take; lia).
        by rewrite take_min_length.
    + rewrite (read_pump_send_spec _ _ _ Hqopen).
      destruct (_ <? _); [|done].
      intros [_ <-]%step_result_eq Ssent Sin Sout. unfold bytes_inv.
      cbn [sys stdout world pumps heap emit] in *.
      rewrite sent_on_emit, !received_on_emit, writes_of_emit. cbn.
      rewrite !app_nil_r. split_and!; eauto.
      rewrite bool_decide_eq_true_2 by done. rewrite R1, fmap_app. cbn.
      by rewrite <- !app_assoc.
    + done.
  - (* the write pump *)
    destruct pc2; [|done].
    destruct (Hq Outgoing) as (_ & Hqopen & _). cbn [queue_of] in Hqopen.
    destruct (c_buf (outgoingQueue (dev (sys p)))) as [|p0 rest] eqn:Hbuf.
    { cbn [write_pump_step]. rewrite Hctx, Hdone. unfold can_recv.
      by rewrite Hqopen, Hbuf. }
    assert (Hp0 : p0 ∈ sent_on Incoming (trace (world (sys p)))).
    { apply (echo_outgoing_from_read_pump p p0 Hecho). rewrite Hbuf.
      apply list_elem_of_here. }
    rewrite Forall_forall in Hprod, Hsent.
    destruct (write_pump_write_spec choice _ (world (sys p)) c p0 rest
                Hctx Hdone Hbuf (Hprod _ Hp0) (Hsent _ Hp0))
      as (t' & w' & log & -> & Hheap & Hdev & Htr & Hlogw & Hlog).
    intros [_ <-]%step_result_eq Ssent Sin Sout. unfold bytes_inv.
    cbn [sys stdout world pumps] in *. rewrite Hheap, Hdev, Htr.
    rewrite !sent_on_app, !received_on_app, !writes_of_app, Hlogw.
    rewrite (proj1 (Hlog Incoming)), (proj2 (Hlog Incoming)),
            (proj2 (Hlog Outgoing)).
    cbn. rewrite !app_nil_r. split_and!; eauto.
    + rewrite R1. cbn. by rewrite ?app_nil_r.
    + rewrite bool_decide_eq_true_2 by done. by rewrite R2, fmap_app.
Qed.

Lemma main_start_bytes_inv (w : World) (p : Program) :
  trace w = [] → main_start w = Started p → bytes_inv (dev_rx w) p.
Proof.
  intros Htr [_ ->]%main_start_Started. unfold bytes_inv.
  cbn [sys stdout world pumps trace heap dev_rx set_ctxs emit set_fds].
  rewrite Htr. cbn. split_and!; eauto.
Qed.

Lemma main_reaches_invariants (w : World) (p : Program) :
  main_reaches w p → healthy_rx (dev_rx w) →
  echo_inv p ∧ healthy_inv p ∧ bytes_inv (dev_rx w) p.
Proof.
  intros Hp Hrx.
  induction Hp as [p Htr Hstart | p th choice p' _ (IHe & IHh & IHb) Hstep].
  - destruct (main_start_echo_inv w p Htr Hstart)
      as (He & Hlive & Hdev & Hsent & Hpumps).
    split_and!; [done| |by apply main_start_bytes_inv].
    unfold healthy_inv. rewrite Hlive, Hdev, Hsent, Hpumps.
    split_and!; try done. by repeat constructor.
  - split_and!.
    + by eapply program_step_echo_inv.
    + by eapply program_step_healthy_inv.
    + destruct th as [|i]; cbn [program_step] in Hstep.
      * by eapply main_step_bytes_inv.
      * destruct (sys_step (RunPump i choice) (sys p)) as [[o s1]|] eqn:HP;
          [|done].
        injection Hstep as <-. by eapply pump_step_bytes_inv.
Qed.

(** write(2) on an open descriptor of a device that accepts every
    write takes all the bytes. *)
Lemma Syscall_write_accepted (fd : uintptr) (bytes : list byte) (w : World) :
  fd ∈ fds w → healthy_tx (dev_tx w) →
  (Syscall_write fd bytes w).1 = (N.of_nat (length bytes), 0%N) ∧
  healthy_tx (dev_tx (Syscall_write fd bytes w).2).
Proof.
  intros Hfd Htx. unfold Syscall_write. cbn [fds dev_tx emit].
  rewrite bool_decide_eq_true_2 by done.
  destruct (dev_tx w) as [|e tx] eqn:Hdev.
  - split; [done|]. cbn [snd dev_tx emit]. by rewrite Hdev.
  - apply Forall_cons in Htx as [-> Htx]. by rewrite N.eqb_refl.
Qed.

(** A write pump step on such a device: the write is accepted and
    nothing is logged. *)
Lemma write_pump_write_accepted (choice : nat) (t : NetDevice) (w : World)
  (c : nat) (p0 : Packet) (rest : list Packet) :
  ctx t = Some c →
  Done_ready w c = false →
  c_buf (outgoingQueue t) = p0 :: rest →
  produced p0 → (1 <= N p0)%N →
  f_closed (file t) = false → f_fd (file t) ∈ fds w →
  healthy_tx (dev_tx w) →
  ∃ t' w',
    write_pump_step choice WP_select t w = Returns WP_select t' w' ∧
    file t' = file t ∧
    trace w' = trace w ++
      [Received Outgoing p0; SysWrite (f_fd (file t)) (bytes_of (heap w) p0)] ∧
    healthy_tx (dev_tx w').
Proof.
  intros Hctx Hdone Hbuf Hprod Hpos Hopen Hfd Htx.
  assert (Hsel : go_select choice (Done_ready w c) true = Case2)
    by (by rewrite Hdone).
  rewrite (write_pump_dequeues choice t w c p0 rest Hctx Hsel Hbuf).
  rewrite (produced_reslice _ Hprod). unfold write. cbn [s_len].
  destruct Hprod as (HN & _).
  rewrite (proj2 (Nat.eqb_neq (s_len (Buf p0)) 0)) by lia.
  rewrite slice_eta. cbn [file set_outgoingQueue].
  change (heap (emit (Received Outgoing p0) w)) with (heap w).
  fold (bytes_of (heap w) p0). unfold Fd. rewrite Hopen.
  set (w1 := emit (Received Outgoing p0) w).
  destruct (Syscall_write_trace (f_fd (file t)) (bytes_of (heap w) p0) w1)
    as [Htr _].
  destruct (Syscall_write_accepted (f_fd (file t)) (bytes_of (heap w) p0) w1)
    as [Hres Htx']; [done|done|].
  destruct (Syscall_write _ _ w1) as [[n e] w2].
  cbn [fst snd] in Htr, Hres, Htx'. injection Hres as -> ->.
  rewrite N.eqb_refl. cbn [negb log_Printf].
  eexists _, _. split; [reflexivity|]. split_and!; try done.
  rewrite Htr. subst w1. cbn [trace emit]. by rewrite <- app_assoc.
Qed.

Lemma program_step_accepted_inv (rx0 : list (positive + list byte))
  (th : thread) (choice : nat) (p p' : Program) :
  echo_inv p → healthy_inv p → bytes_inv rx0 p → accepted_inv p →
  program_step th choice p = Some p' →
  accepted_inv p'.
Proof.
  intros Hecho (Hlive & Hrx & Hsent & Hpos) (_ & _ & _ & (pc1 & pc2 & Hpumps))
         [Htx Hclean] Hstep.
  pose proof Hecho as (Hreach & _ & _ & (c & Hctx & Hdone) & Hopen & Hfd).
  destruct (reachable_sys_inv _ Hreach) as (Hq & Hok & Hprod).
  destruct th as [|i]; cbn [program_step] in Hstep.
  - (* the main goroutine *)
    unfold main_step in Hstep. destruct (pc p) as [|pkt].
    + destruct (sys_step CallRead (sys p)) as [[o s1]|] eqn:HR; [|done].
      destruct (CallRead_spec _ _ _ Hreach HR) as (p0 & rest & _ & Hp0 & -> & Hs1).
      rewrite (produced_reslice _ Hp0), slice_eta in Hstep. injection Hstep as <-.
      unfold accepted_inv. cbn [sys]. rewrite Hs1.
      cbn [dev world file set_incomingQueue dev_tx trace emit].
      split; [done|]. apply Forall_app. split; [done|]. by repeat constructor.
    + destruct (sys_step (CallWrite choice pkt) (sys p)) as [[o s1]|] eqn:HW;
        [|done].
      injection Hstep as <-.
      destruct (CallWrite_spec _ _ _ _ _ _ Hreach Hctx Hdone HW) as (-> & Hs1).
      unfold accepted_inv. cbn [sys]. rewrite Hs1.
      cbn [dev world file set_outgoingQueue dev_tx trace emit].
      split; [done|]. apply Forall_app. split; [done|]. by repeat constructor.
  - (* the pumps *)
    destruct (sys_step (RunPump i choice) (sys p)) as [[o s1]|] eqn:HP; [|done].
    injection Hstep as <-. unfold accepted_inv. cbn [sys].
    revert HP. unfold sys_step. rewrite Hlive, Hpumps.
    rewrite Hpumps in Hok, Hpos.
    destruct i as [|[|i]]; [| |done]; cbn [lookup list_lookup run_goroutine].
    + apply Forall_cons in Hok as [Hok1 _]. cbn in Hok1.
      destruct (Hq Incoming) as (_ & Hqopen & _). cbn [queue_of] in Hqopen.
      destruct pc1 as [|buf|pkt|].
      * rewrite (read_pump_select_alloc _ _ c Hctx Hdone).
        intros [_ <-]%step_result_eq. cbn [dev world].
        change (trace (make_bytes PACKET_SIZE (world (sys p))).2)
          with (trace (world (sys p))).
        change (dev_tx (make_bytes PACKET_SIZE (world (sys p))).2)
          with (dev_tx (world (sys p))).
        by split.
      * destruct Hok1 as [Hlen Hcap].
        destruct (dev_rx (world (sys p))) as [|[e|data] rx] eqn:Hdev.
        -- cbn [read_pump_step]. unfold read, Syscall_read, Fd.
           rewrite Hlen, Hopen, Hdev. change (PACKET_SIZE =? 0) with false.
           cbn match. by rewrite bool_decide_eq_true_2.
        -- by apply Forall_cons in Hrx as [? _].
        -- rewrite (read_pump_read_spec buf _ _ data rx Hlen Hcap Hopen Hfd Hdev).
           intros [_ <-]%step_result_eq.
           cbn [dev world dev_tx trace set_heap set_dev_rx emit].
           split; [done|]. apply Forall_app. split; [done|].
           by repeat constructor.
      * rewrite (read_pump_send_spec _ _ _ Hqopen).
        destruct (_ <? _); [|done].
        intros [_ <-]%step_result_eq.
        cbn [dev world file set_incomingQueue dev_tx trace emit].
        split; [done|]. apply Forall_app. split; [done|].
        by repeat constructor.
      * done.
    + destruct pc2; [|done].
      destruct (Hq Outgoing) as (_ & Hqopen & _). cbn [queue_of] in Hqopen.
      destruct (c_buf (outgoingQueue (dev (sys p)))) as [|p0 rest] eqn:Hbuf.
      { cbn [write_pump_step]. rewrite Hctx, Hdone. unfold can_recv.
        by rewrite Hqopen, Hbuf. }
      assert (Hp0 : p0 ∈ sent_on Incoming (trace (world (sys p)))).
      { apply (echo_outgoing_from_read_pump p p0 Hecho). rewrite Hbuf.
        apply list_elem_of_here. }
      rewrite Forall_forall in Hprod, Hsent.
      destruct (write_pump_write_accepted choice _ (world (sys p)) c p0 rest
                  Hctx Hdone Hbuf (Hprod _ Hp0) (Hsent _ Hp0) Hopen Hfd Htx)
        as (t' & w' & -> & Hfile & Htr & Htx').
      intros [_ <-]%step_result_eq. cbn [dev world]. rewrite Hfile, Htr.
      split; [done|]. apply Forall_app. split; [done|].
      by repeat constructor.
Qed.

Lemma main_reaches_accepted (w : World) (p : Program) :
  main_reaches w p → healthy_rx (dev_rx w) → healthy_tx (dev_tx w) →
  accepted_inv p.
Proof.
  intros Hp Hrx Htx.
  induction Hp as [p Htr Hstart | p th choice p' Hp IH Hstep].
  - apply main_start_Started in Hstart as [_ ->]. unfold accepted_inv.
    cbn [sys dev world file dev_tx trace set_ctxs set_fds emit f_fd].
    split; [done|]. rewrite Htr. by repeat constructor.
  - destruct (main_reaches_invariants w p Hp Hrx) as (He & Hh & Hb).
    by eapply program_step_accepted_inv.
Qed.

(** X14: on a device whose reads all succeed with at least one byte and
    which accepts every write, the echo program writes back what it
    read.  In every state it reaches, the byte strings the device has
    delivered (each cut to 2048 bytes) are, in order: the byte strings
    written to the device so far, then the bytes of the packets still on
    their way through the two queues and the main goroutine, then the
    packet the read pump holds, then what the device has yet to deliver.
    The dumps printed are the strings written followed by those of the
    packets read and not yet written.  The writes counted did reach the
    device: every read and write so far was made on the descriptor of
    the device's file and nothing was logged as failed, the file is
    open with its descriptor in the descriptor table, and write(2) on
    it is accepted in full. *)
Theorem echo_program_writes_what_it_read (w : World) (p : Program) :
  main_reaches w p →
  healthy_rx (dev_rx w) →
  healthy_tx (dev_tx w) →
  let s := sys p in
  let h := heap (world s) in
  datas (dev_rx w) =
    writes_of (trace (world s)) ++
    (bytes_of h <$> (c_buf (outgoingQueue (dev s)) ++ in_hand p ++
                     c_buf (incomingQueue (dev s)))) ++
    concat (pending h <$> pumps s) ++
    datas (dev_rx (world s)) ∧
  stdout p =
    writes_of (trace (world s)) ++
    (bytes_of h <$> (c_buf (outgoingQueue (dev s)) ++ in_hand p)) ∧
  Forall (on_device (f_fd (file (dev s)))) (trace (world s)) ∧
  f_closed (file (dev s)) = false ∧
  f_fd (file (dev s)) ∈ fds (world s) ∧
  (∀ bytes,
     (Syscall_write (Fd (file (dev s))) bytes (world s)).1 =
       (N.of_nat (length bytes), 0%N)).
Proof.
  intros Hp Hrx Htx.
  destruct (main_reaches_invariants w p Hp Hrx)
    as ((Hreach & Hecho & _ & _ & Hopen & Hfd) & _ & (R1 & R2 & R3 & _)).
  destruct (main_reaches_accepted w p Hp Hrx Htx) as [Htx' Hclean].
  destruct (reachable_sys_inv _ Hreach) as (Hq & _ & _).
  destruct (Hq Incoming) as (_ & _ & _ & Hin).
  destruct (Hq Outgoing) as (_ & _ & _ & Hout). cbn [queue_of] in Hin, Hout.
  cbn zeta. split_and!; try done.
  - rewrite R1, R2, Hin, <- Hecho, Hout. rewrite !fmap_app.
    by rewrite <- !app_assoc.
  - rewrite R3, R2, <- Hecho, Hout. rewrite !fmap_app. by rewrite <- !app_assoc.
  - intros bytes. unfold Fd. rewrite Hopen.
    by apply Syscall_write_accepted.
Qed.

Lemma echo_program_writes_what_it_read_witness :
  writes_of (trace (world (sys echo_program))) = [[x01; x02]; [x03; x04; x05]] ∧
  stdout echo_program = [[x01; x02]; [x03; x04; x05]] ∧
  Forall (on_device 3%N) (trace (world (sys echo_program))).
Proof.
  destruct (echo_program_writes_what_it_read echo_world echo_program)
    as (Hdata & Hout & Hclean & _).
  - apply (program_run_reaches echo_world echo_schedule_main echo_program_start).
    + apply main_started; reflexivity.
    + vm_compute. reflexivity.
  - repeat constructor.
  - constructor.
  - split_and!; [vm_compute; reflexivity|rewrite Hout; vm_compute; reflexivity|].
    exact Hclean.
Defined.
